(** * Monte Carlo tree search engine of MonteCarloTicTacToe

    A shallow embedding of [src/mcts_modified.py], which holds two copies of
    the engine: the iteration-budget engine with the heuristic sampled
    rollout (lines 1-180) and the wall-clock engine with the pure random
    rollout (lines 183-321).

    Conventions of the embedding.
    - The search tree is a store of node objects, addressed by the order of
      their creation; the root is object 0.  A parent link or a dictionary
      value is such an address, so that the in-place updates of the source
      are updates of the store.
    - [random.choice] reads a random source that is threaded through the
      engine.
    - Python exceptions and non-termination are results of type [res].
      The call stack is bounded: the recursions of [traverse_nodes] and of
      [backpropagate] raise RecursionError when they nest deeper than the
      interpreter allows.
    - The readings of the clock and the scores the heuristic rollout sums
      are binary64 floats, with the operations of IEEE 754.
    - The functions of the game are total and pure, as section 6 of the
      specification asks.
    - The UCT score is computed over the real numbers (square root and
      natural logarithm); the win ratios of the final loop, which are
      quotients of two integers, are computed over the rationals. *)

From Stdlib Require Import PrimFloat.
From Stdlib Require SpecFloat FloatOps.
From Stdlib Require Import Reals Lra QArith Lia.
From stdpp Require Import base decidable option list.

Set Default Proof Using "Type".

(** ** Results of running Python code *)

Inductive exn : Set :=
| IndexError          (* choice of an empty sequence, moves[0] of [] *)
| ZeroDivisionError   (* x / 0 *)
| ValueError          (* math.log of 0 *)
| RecursionError      (* maximum recursion depth exceeded *)
| OverflowError       (* int too large to convert to float *)
| DanglingRef.        (* an address outside the store: no Python object *)

Inductive res (A : Type) : Type :=
| Ok (a : A)
| Raise (e : exn)
| Diverge.            (* the fuel of a loop ran out *)

Arguments Ok {A} a.
Arguments Raise {A} e.
Arguments Diverge {A}.

#[global] Instance res_ret : MRet res := fun A a => Ok a.
#[global] Instance res_bind : MBind res := fun A B f m =>
  match m with
  | Ok a => f a
  | Raise e => Raise e
  | Diverge => Diverge
  end.

(** ** The random source *)

(** The random source is the sequence of the raw draws still to come. *)
Definition Rng : Type := nat -> nat.

Definition rng_next (g : Rng) : Rng := fun i => g (S i).

(** [random.choice(seq)]: IndexError on an empty sequence. *)
Definition choice {A : Type} (seq : list A) (g : Rng) : res (A * Rng) :=
  match seq with
  | [] => Raise IndexError
  | x0 :: _ => Ok (nth (g 0 mod length seq) seq x0, rng_next g)
  end.

(** [lst.remove(x)]: drops the first occurrence of [x]. *)
Fixpoint list_remove {A : Type} `{EqDecision A} (x : A) (l : list A) : list A :=
  match l with
  | [] => []
  | y :: l' => if decide (x = y) then l' else y :: list_remove x l'
  end.

(** [d[k] = v] on a dictionary kept in insertion order: an existing key
    keeps its place, a new key goes last. *)
Fixpoint dict_set {K V : Type} `{EqDecision K} (k : K) (v : V)
    (d : list (K * V)) : list (K * V) :=
  match d with
  | [] => [(k, v)]
  | (k', v') :: d' =>
      if decide (k = k') then (k, v) :: d' else (k', v') :: dict_set k v d'
  end.

(** ** The game interface and the node model *)

(** The identities of the two players are the integers 1 (red) and 2 (blue). *)
Definition Identity : Type := nat.

(** The call stack [think] runs on.  [frames] is the number of calls the
    interpreter still allows to nest below the frame of [think]: the
    recursion limit less the depth at which [think] runs.  A recursion that
    nests deeper raises RecursionError.  Only the recursive calls of
    [traverse_nodes] and of [backpropagate] are charged to it; a call that
    does not recurse (the lambda [explore], [choice], a method of the game)
    is taken to find room, hence [frames_pos]. *)
Class CallStack : Type := {
  frames : nat;
  frames_pos : 0 < frames
}.

Section Engine.

Context {State Action Cell : Type} `{EqDecision Action} {stack : CallStack}.

(** The game object [board] handed to every function of the engine. *)
Record Board : Type := {
  legal_actions : State -> list Action;
  next_state : State -> Action -> State;
  current_player : State -> Identity;
  is_ended : State -> bool;
  owned_boxes : State -> list (Cell * Identity);
  (* None, or the points of red (key 1) and of blue (key 2) *)
  points_values : State -> option (Z * Z)
}.

(** Modelled from the spec: class MCTSNode of mcts_node.py, which is not
    part of the sources.  Section 3 of the specification lists its fields:
    the parent link (none for the root), the action that led here, the
    children by action, the untried actions, and the two counters, which
    start at 0. *)
Record MCTSNode : Type := mkNode {
  parent : option nat;
  parent_action : option Action;
  child_nodes : list (Action * nat);
  untried_actions : list Action;
  wins : nat;
  visits : nat
}.

(** Modelled from the spec: the constructor
    [MCTSNode(parent, parent_action, action_list)]. *)
Definition MCTSNode_new (p : option nat) (a : option Action)
    (action_list : list Action) : MCTSNode :=
  mkNode p a [] action_list 0 0.

Abbreviation Tree := (list MCTSNode).

Definition root_node : nat := 0.

Definition lookup_node (tree : Tree) (node : nat) : res MCTSNode :=
  match tree !! node with
  | Some n => Ok n
  | None => Raise DanglingRef
  end.

(** ** Selection *)

Definition num_nodes : nat := 1000.
Definition explore_faction : R := 2%R.

(** [explore = lambda w, n, t, c: (w / n) + (c * sqrt((log(t) / n)))].
    The quotient [w / n] is evaluated first, then [log(t)]. *)
Definition explore (w n t : nat) (c : R) : res R :=
  if decide (n = 0) then Raise ZeroDivisionError
  else if decide (t = 0) then Raise ValueError
  else Ok (INR w / INR n + c * sqrt (ln (INR t) / INR n))%R.

(** The loop [for child in node.child_nodes] of [traverse_nodes]: [t] is
    [node.visits], the accumulator is [(bestest, new_node)]. *)
Fixpoint uct_scan (tree : Tree) (t : nat) (children : list (Action * nat))
    (bestest : R) (new_node : nat) : res (R * nat) :=
  match children with
  | [] => Ok (bestest, new_node)
  | (_, child) :: rest =>
      cn ← lookup_node tree child;
      value ← explore (wins cn) (visits cn) t explore_faction;
      if Rgt_dec value bestest
      then uct_scan tree t rest value child
      else uct_scan tree t rest bestest new_node
  end.

(** [fuel] is the number of frames left to the recursion: each activation
    takes one. *)
Fixpoint traverse_nodes (fuel : nat) (tree : Tree) (node : nat)
    (board : Board) (state : State) (identity : Identity) : res nat :=
  match fuel with
  | 0 => Raise RecursionError
  | S fuel' =>
      n ← lookup_node tree node;
      match untried_actions n with
      | [] =>
          '(bestest, new_node) ←
            uct_scan tree (visits n) (child_nodes n) 0%R node;
          if Req_dec_T bestest 0%R
          then Ok new_node
          else traverse_nodes fuel' tree new_node board state identity
      | _ :: _ => Ok node
      end
  end.

(** The activations of [traverse_nodes], outermost first: the node and the
    state each one receives.  Same recursion as [traverse_nodes]. *)
Fixpoint traverse_calls (fuel : nat) (tree : Tree) (node : nat)
    (board : Board) (state : State) (identity : Identity)
    : res (list (nat * State)) :=
  match fuel with
  | 0 => Raise RecursionError
  | S fuel' =>
      n ← lookup_node tree node;
      match untried_actions n with
      | [] =>
          '(bestest, new_node) ←
            uct_scan tree (visits n) (child_nodes n) 0%R node;
          if Req_dec_T bestest 0%R
          then Ok [(node, state)]
          else
            calls ← traverse_calls fuel' tree new_node board state identity;
            Ok ((node, state) :: calls)
      | _ :: _ => Ok [(node, state)]
      end
  end.

(** ** Expansion *)

Definition add_child (action : Action) (child : nat) (n : MCTSNode) : MCTSNode :=
  mkNode (parent n) (parent_action n)
         (dict_set action child (child_nodes n))
         (list_remove action (untried_actions n))
         (wins n) (visits n).

(** [expand_leaf] of the iteration-budget engine (lines 39-55).  The new
    node object is allocated at the end of the store. *)
Definition expand_leaf (tree : Tree) (node : nat) (board : Board)
    (state : State) (g : Rng) : res (Tree * nat * State * Rng) :=
  n ← lookup_node tree node;
  '(action, g') ← choice (untried_actions n) g;
  let state' := next_state board state action in
  let actions := legal_actions board state' in
  let child := length tree in
  let tree' := tree ++ [MCTSNode_new (Some node) (Some action) actions] in
  Ok (<[node := add_child action child n]> tree', child, state', g').

(** [expand_leaf] of the wall-clock engine (lines 222-241). *)
Definition expand_leaf_vanilla (tree : Tree) (node : nat) (board : Board)
    (state : State) (g : Rng) : res (Tree * nat * State * Rng) :=
  if negb (is_ended board state)
  then expand_leaf tree node board state g
  else Ok (tree, node, state, g).

(** ** Simulation *)

(** The pure random rollout of the wall-clock engine (lines 243-254). *)
Fixpoint rollout_vanilla (fuel : nat) (board : Board) (state : State)
    (g : Rng) : res (State * Rng) :=
  if negb (is_ended board state) then
    match fuel with
    | 0 => Diverge
    | S fuel' =>
        '(action, g') ← choice (legal_actions board state) g;
        rollout_vanilla fuel' board (next_state board state action) g'
    end
  else Ok (state, g).

Definition ROLLOUTS : nat := 10.
Definition MAX_DEPTH : nat := 5.

(** The helper [outcome] of the heuristic rollout; [me] is the player to
    move when the rollout starts. *)
Definition outcome (me : Identity) (owned_boxes_ : list (Cell * Identity))
    (game_points : option (Z * Z)) : Z :=
  let '(red_score, blue_score) :=
    match game_points with
    | Some (red, blue) => (red * 9, blue * 9)%Z
    | None =>
        (Z.of_nat (length (filter (λ kv, snd kv = 1) owned_boxes_)),
         Z.of_nat (length (filter (λ kv, snd kv = 2) owned_boxes_)))
    end in
  if decide (me = 1) then (red_score - blue_score)%Z
  else (blue_score - red_score)%Z.

(** [for i in range(MAX_DEPTH)]: one capped random playout. *)
Fixpoint playout (depth : nat) (board : Board) (rollout_state : State)
    (g : Rng) : res (State * Rng) :=
  match depth with
  | 0 => Ok (rollout_state, g)
  | S depth' =>
      if is_ended board rollout_state then Ok (rollout_state, g)
      else
        '(rollout_move, g') ← choice (legal_actions board rollout_state) g;
        playout depth' board (next_state board rollout_state rollout_move) g'
  end.

(** The integer [n] as the float that [total_score += n] adds: the nearest
    binary64 float, ties to even, and OverflowError beyond the range of the
    floats. *)
Definition float_of_int (n : Z) : res float :=
  match SpecFloat.binary_normalize FloatOps.prec FloatOps.emax n 0 false with
  | SpecFloat.S754_infinity _ => Raise OverflowError
  | x => Ok (FloatOps.SF2Prim x)
  end.

(** [for r in range(ROLLOUTS)]: the sum of the scores of the samples of one
    candidate move, a float that starts at 0.0. *)
Fixpoint sample_move (r : nat) (board : Board) (me : Identity)
    (state : State) (move : Action) (total_score : float) (g : Rng)
    : res (float * Rng) :=
  match r with
  | 0 => Ok (total_score, g)
  | S r' =>
      '(rollout_state, g') ←
        playout MAX_DEPTH board (next_state board state move) g;
      score ← float_of_int (outcome me (owned_boxes board rollout_state)
                                       (points_values board rollout_state));
      sample_move r' board me state move (PrimFloat.add total_score score) g'
  end.

(** [expectation > best_expectation], on floats. *)
Definition better (expectation best_expectation : float) : bool :=
  PrimFloat.ltb best_expectation expectation.

(** [for move in moves]: the move of greatest average score.  The average
    is [float(total_score) / ROLLOUTS], the float sum divided by 10. *)
Fixpoint best_sampled_move (board : Board) (me : Identity) (state : State)
    (moves : list Action) (best_move : Action) (best_expectation : float)
    (g : Rng) : res (Action * Rng) :=
  match moves with
  | [] => Ok (best_move, g)
  | move :: rest =>
      '(total_score, g') ←
        sample_move ROLLOUTS board me state move PrimFloat.zero g;
      let expectation := PrimFloat.div total_score 10 in
      if better expectation best_expectation
      then best_sampled_move board me state rest move expectation g'
      else best_sampled_move board me state rest best_move best_expectation g'
  end.

(** The truth value of a method object that is not called: a bound method
    has neither [__bool__] nor [__len__], so it counts as true. *)
Definition method_truth {A B : Type} (method : A -> B) : bool := true.

(** The heuristic sampled rollout of the iteration-budget engine (lines
    58-116).  The loop test is [not board.is_ended]: the method is not
    called.  The [print] of the chosen move is not modelled. *)
Fixpoint rollout_loop (fuel : nat) (board : Board) (me : Identity)
    (state : State) (g : Rng) : res (State * Rng) :=
  if negb (method_truth (is_ended board)) then
    match fuel with
    | 0 => Diverge
    | S fuel' =>
        if decide (current_player board state = me) then
          match legal_actions board state with
          | [] => Raise IndexError
          | move0 :: _ as moves =>
              '(best_move, g') ←
                best_sampled_move board me state moves move0
                                  PrimFloat.neg_infinity g;
              rollout_loop fuel' board me (next_state board state best_move) g'
          end
        else
          '(action, g') ← choice (legal_actions board state) g;
          rollout_loop fuel' board me (next_state board state action) g'
    end
  else Ok (state, g).

Definition rollout (fuel : nat) (board : Board) (state : State) (g : Rng)
    : res (State * Rng) :=
  let me := current_player board state in
  rollout_loop fuel board me state g.

(** ** Backpropagation *)

Definition credit (won : bool) (n : MCTSNode) : MCTSNode :=
  mkNode (parent n) (parent_action n) (child_nodes n) (untried_actions n)
         (if won then wins n + 1 else wins n) (visits n + 1).

(** [fuel] is the number of frames left to the recursion. *)
Fixpoint backpropagate (fuel : nat) (tree : Tree) (node : nat) (won : bool)
    : res Tree :=
  match fuel with
  | 0 => Raise RecursionError
  | S fuel' =>
      n ← lookup_node tree node;
      let tree' := <[node := credit won n]> tree in
      match parent n with
      | Some p => backpropagate fuel' tree' p won
      | None => Ok tree'
      end
  end.

(** ** The search driver *)

(** The two parts in which the engines differ. *)
Record Strategy : Type := {
  expand : Tree -> nat -> Board -> State -> Rng -> res (Tree * nat * State * Rng);
  simulate : Board -> State -> Rng -> res (State * Rng)
}.

(** The engine of lines 1-180; [fuel] bounds the loop of its rollout. *)
Definition modified (fuel : nat) : Strategy :=
  {| expand := expand_leaf; simulate := rollout fuel |}.

(** The engine of lines 183-321. *)
Definition vanilla (fuel : nat) : Strategy :=
  {| expand := expand_leaf_vanilla; simulate := rollout_vanilla fuel |}.

(** One pass of the loop body of [think].  The recursions of
    [traverse_nodes] and of [backpropagate] have the [frames] of the call
    stack. *)
Definition mcts_step (strat : Strategy) (board : Board) (state : State)
    (identity_of_bot : Identity) (st : Tree * Rng) : res (Tree * Rng) :=
  let '(tree, g) := st in
  let sampled_game := state in
  let node := root_node in
  leaf ← traverse_nodes frames tree node board sampled_game identity_of_bot;
  leaf_obj ← lookup_node tree leaf;
  '(tree, node, sampled_game, g) ←
    match untried_actions leaf_obj with
    | [] => Ok (tree, node, sampled_game, g)
    | _ :: _ => expand strat tree leaf board sampled_game g
    end;
  '(sampled_game, g) ← simulate strat board sampled_game g;
  let player := current_player board sampled_game in
  let won := bool_decide (player ≠ identity_of_bot) in
  tree ← backpropagate frames tree node won;
  Ok (tree, g).

(** [for step in range(n)]. *)
Fixpoint mcts_loop (n : nat) (strat : Strategy) (board : Board)
    (state : State) (identity_of_bot : Identity) (st : Tree * Rng)
    : res (Tree * Rng) :=
  match n with
  | 0 => Ok st
  | S n' =>
      st' ← mcts_step strat board state identity_of_bot st;
      mcts_loop n' strat board state identity_of_bot st'
  end.

(** The final loop of [think] over [root_node.child_nodes]. *)
Fixpoint best_action (tree : Tree) (children : list (Action * nat))
    (best : Q) (action : option Action) : res (option Action) :=
  match children with
  | [] => Ok action
  | (_, child) :: rest =>
      cn ← lookup_node tree child;
      if decide (visits cn = 0) then Raise ZeroDivisionError
      else
        let value := (Z.of_nat (wins cn) # Pos.of_nat (visits cn))%Q in
        if Qle_bool best value
        then best_action tree rest value (parent_action cn)
        else best_action tree rest best action
  end.

Definition final_action (tree : Tree) : res (option Action) :=
  root ← lookup_node tree root_node;
  best_action tree (child_nodes root) 0%Q None.

Definition initial_tree (board : Board) (state : State) : Tree :=
  [MCTSNode_new None None (legal_actions board state)].

(** [think] with an iteration budget of [budget]. *)
Definition think_budget (budget : nat) (strat : Strategy) (board : Board)
    (state : State) (g : Rng) : res (option Action) :=
  let identity_of_bot := current_player board state in
  '(tree, _) ← mcts_loop budget strat board state identity_of_bot
                         (initial_tree board state, g);
  final_action tree.

(** [think] of the iteration-budget engine (lines 135-180). *)
Definition think (fuel : nat) (board : Board) (state : State) (g : Rng)
    : res (option Action) :=
  think_budget num_nodes (modified fuel) board state g.

(** The wall-clock readings still to come, in seconds: one per call of
    [time()], each a binary64 float. *)
Definition Clock : Type := nat -> float.

(** [while time_elapsed <= 1] of the wall-clock engine (lines 289-309). *)
Fixpoint timed_loop (fuel : nat) (strat : Strategy) (board : Board)
    (state : State) (identity_of_bot : Identity) (start time_elapsed : float)
    (clock : Clock) (st : Tree * Rng) : res (Tree * Rng) :=
  if PrimFloat.leb time_elapsed 1 then
    match fuel with
    | 0 => Diverge
    | S fuel' =>
        st' ← mcts_step strat board state identity_of_bot st;
        timed_loop fuel' strat board state identity_of_bot start
                   (PrimFloat.sub (clock 0) start) (fun i => clock (S i)) st'
    end
  else Ok st.

(** [think] of the wall-clock engine (lines 273-321); [loop_fuel] bounds
    the number of passes, [fuel] the loop of the rollout. *)
Definition think_time (loop_fuel fuel : nat) (clock : Clock) (board : Board)
    (state : State) (g : Rng) : res (option Action) :=
  let identity_of_bot := current_player board state in
  let start := clock 0 in
  let time_elapsed := PrimFloat.sub (clock 1) start in
  '(tree, _) ← timed_loop loop_fuel (vanilla fuel) board state identity_of_bot
                          start time_elapsed (fun i => clock (2 + i))
                          (initial_tree board state, g);
  final_action tree.

(** ** Notions used by the statements *)

(** The two engines of the source. *)
Inductive engine : Strategy -> Prop :=
| engine_modified fuel : engine (modified fuel)
| engine_vanilla fuel : engine (vanilla fuel).

(** The trees a search over [state] holds between two passes of its loop. *)
Inductive searched (strat : Strategy) (board : Board) (state : State)
    : Tree -> Prop :=
| searched_root : searched strat board state (initial_tree board state)
| searched_step tree g tree' g' :
    searched strat board state tree ->
    mcts_step strat board state (current_player board state) (tree, g)
      = Ok (tree', g') ->
    searched strat board state tree'.

(** The parent chain of [node]: the node, its parent, and so on up to the
    object that has no parent. *)
Fixpoint parent_chain (fuel : nat) (tree : Tree) (node : nat) : list nat :=
  match fuel with
  | 0 => []
  | S fuel' =>
      match tree !! node with
      | None => []
      | Some n =>
          node :: match parent n with
                  | Some p => parent_chain fuel' tree p
                  | None => []
                  end
      end
  end.

(** Every parent link points to an object created earlier. *)
Definition links_ok (tree : Tree) : Prop :=
  ∀ i n p, tree !! i = Some n → parent n = Some p → p < i.

(** The shape and the counters of a search tree. *)
Record tree_ok (tree : Tree) : Prop := {
  ok_root : ∃ r, tree !! root_node = Some r ∧ parent r = None;
  ok_parent : ∀ i n, tree !! i = Some n → i ≠ root_node →
    ∃ p pn, parent n = Some p ∧ p < i ∧ tree !! p = Some pn ∧
            visits n ≤ visits pn;
  ok_children : ∀ i n a c, tree !! i = Some n → (a, c) ∈ child_nodes n →
    ∃ cn, tree !! c = Some cn ∧ parent cn = Some i ∧
          parent_action cn = Some a;
  ok_wins : ∀ i n, tree !! i = Some n → wins n ≤ visits n
}.

(** Every object but the root, and but [fresh], went through a
    backpropagation. *)
Definition all_visited (fresh : option nat) (tree : Tree) : Prop :=
  ∀ i n, tree !! i = Some n → i ≠ root_node → Some i ≠ fresh →
         1 ≤ visits n.

(** The scores the loop of [traverse_nodes] computes, in its order. *)
Fixpoint child_scores (tree : Tree) (t : nat) (children : list (Action * nat))
    : res (list R) :=
  match children with
  | [] => Ok []
  | (_, child) :: rest =>
      cn ← lookup_node tree child;
      value ← explore (wins cn) (visits cn) t explore_faction;
      values ← child_scores tree t rest;
      Ok (value :: values)
  end.

(** [wins / visits] of a node, as the final loop of [think] computes it. *)
Definition win_ratio (n : MCTSNode) : Q :=
  (Z.of_nat (wins n) # Pos.of_nat (visits n))%Q.

(** ** Notions used by the further statements *)

(** [d[k]] on a dictionary: the value stored under the key, if any. *)
Fixpoint dict_get {V : Type} (k : Action) (d : list (Action * V)) : option V :=
  match d with
  | [] => None
  | (k', v) :: d' => if decide (k = k') then Some v else dict_get k d'
  end.

(** The state reached from [state] by the actions of [actions], in order. *)
Definition play (board : Board) (state : State) (actions : list Action)
    : State :=
  foldl (next_state board) state actions.

(** Each action of [actions] is applied to a state that is not ended and in
    which it is legal. *)
Fixpoint legal_play (board : Board) (state : State) (actions : list Action)
    : Prop :=
  match actions with
  | [] => True
  | a :: rest =>
      is_ended board state = false ∧ a ∈ legal_actions board state ∧
      legal_play board (next_state board state a) rest
  end.

(** [leaf] is [node] or is reached from it through entries of
    [child_nodes]. *)
Inductive descends (tree : Tree) : nat -> nat -> Prop :=
| descends_here node : descends tree node node
| descends_child node n a c leaf :
    tree !! node = Some n -> (a, c) ∈ child_nodes n ->
    descends tree c leaf -> descends tree node leaf.

(** The actions a node has been expanded by, in the order of expansion. *)
Definition expanded_actions (n : MCTSNode) : list Action :=
  (child_nodes n).*1.

(** The bookkeeping of expansion at one node: no action is expanded twice,
    and none is both expanded and untried. *)
Definition actions_ok (n : MCTSNode) : Prop :=
  NoDup (expanded_actions n ++ untried_actions n).

(** Every node but the root is registered in its parent under the action
    that led to it. *)
Definition registered (tree : Tree) : Prop :=
  ∀ c cn p a, tree !! c = Some cn → parent cn = Some p →
    parent_action cn = Some a →
    ∃ pn, tree !! p = Some pn ∧ dict_get a (child_nodes pn) = Some c.

(** The parent of every object is the object created just before it: the
    store is a single branch. *)
Definition branch_links (tree : Tree) : Prop :=
  ∀ j n, tree !! j = Some n →
    parent n = match j with 0 => None | S i => Some i end.

(** [n'] is [n] with at most one more visit and at most one more win. *)
Definition counted (n n' : MCTSNode) : Prop :=
  parent n' = parent n ∧ parent_action n' = parent_action n ∧
  child_nodes n' = child_nodes n ∧ untried_actions n' = untried_actions n ∧
  visits n ≤ visits n' ≤ visits n + 1 ∧ wins n ≤ wins n' ≤ wins n + 1.

(** The time elapsed at the [j]-th test of the loop of the wall-clock
    engine: the reading after [j] passes minus the first reading, as
    floats. *)
Definition elapsed_at (clock : Clock) (j : nat) : float :=
  PrimFloat.sub (clock (S j)) (clock 0).

(** The visits of the children registered at a node, summed. *)
Definition children_visits (tree : Tree) (n : MCTSNode) : nat :=
  sum_list ((λ kv : Action * nat,
               match tree !! kv.2 with
               | Some cn => visits cn
               | None => 0
               end) <$> child_nodes n).

End Engine.

Arguments Board : clear implicits.
Arguments MCTSNode : clear implicits.

(** A game in which [state] and the state after its action 1 both have the
    single legal action 1, the other player being to move after it. *)
Definition single_file {State Cell : Type} (board : Board State nat Cell)
    (state : State) : Prop :=
  legal_actions board state = [1] ∧
  legal_actions board (next_state board state 1) = [1] ∧
  current_player board (next_state board state 1)
  ≠ current_player board state.

(** A tree that is a single branch of [k] nodes below the root: each node
    but the last has the next one as its only child, under action 1, and no
    untried action; the last one has the untried action 1; every node has as
    many wins as visits. *)
Definition branch (k : nat) (tree : list (MCTSNode nat)) : Prop :=
  length tree = S k ∧
  ∀ j, j ≤ k → ∃ n, tree !! j = Some n ∧
    parent n = (match j with 0 => None | S i => Some i end) ∧
    child_nodes n = (if decide (j < k) then [(1, S j)] else []) ∧
    untried_actions n = (if decide (j < k) then [] else [1]) ∧
    wins n = visits n ∧ (j < k ∨ 0 < j → 1 ≤ visits n).

(** ** A concrete game: one pile, take one or two tokens

    A state is the number of tokens left and the player to move; the player
    who cannot move has lost. *)
Module Nim.

Definition state : Type := nat * Identity.

Definition moves (s : state) : list nat :=
  match fst s with
  | 0 => []
  | 1 => [1]
  | _ => [1; 2]
  end.

Definition board : Board state nat unit := {|
  legal_actions := moves;
  next_state := fun s a => (fst s - a, 3 - snd s);
  current_player := snd;
  is_ended := fun s => Nat.eqb (fst s) 0;
  owned_boxes := fun _ => [];
  points_values := fun _ => None
|}.

(** A random source whose draws are all 0: [choice] takes the first
    element. *)
Definition first_choice : Rng := fun _ => 0.

(** The tree of a search by player 1 over one token, after one pass. *)
Definition one_token_tree : list (MCTSNode nat) :=
  [ mkNode None None [(1, 1)] [] 1 1;
    mkNode (Some 0) (Some 1) [] [] 1 1 ].

(** The tree of a search by player 1 over two tokens, after two passes. *)
Definition two_token_tree : list (MCTSNode nat) :=
  [ mkNode None None [(1, 1); (2, 2)] [] 2 2;
    mkNode (Some 0) (Some 1) [] [1] 1 1;
    mkNode (Some 0) (Some 2) [] [] 1 1 ].

End Nim.

(** ** Further concrete inputs *)

(** A game that breaks the interface: a counter that is counted down by
    the single action 1, and that never reports its end. *)
Module Countdown.

Definition board : Board nat nat unit := {|
  legal_actions := fun s => match s with 0 => [] | S _ => [1] end;
  next_state := fun s a => s - a;
  current_player := fun s => 1 + s mod 2;
  is_ended := fun _ => false;
  owned_boxes := fun _ => [];
  points_values := fun _ => None
|}.

End Countdown.

(** The same counter as a game that keeps to the interface: it reports its
    end at 0, where the player to move has no action. *)
Module TakeOne.

Definition board : Board nat nat unit := {|
  legal_actions := fun s => match s with 0 => [] | S _ => [1] end;
  next_state := fun s a => s - a;
  current_player := fun s => 1 + s mod 2;
  is_ended := fun s => Nat.eqb s 0;
  owned_boxes := fun _ => [];
  points_values := fun _ => None
|}.

(** The tree of a search by player 1 over the counter at 2, after one pass
    and after two passes of the iteration-budget engine. *)
Definition one_pass_tree : list (MCTSNode nat) :=
  [ mkNode None None [(1, 1)] [] 1 1;
    mkNode (Some 0) (Some 1) [] [1] 1 1 ].

Definition two_pass_tree : list (MCTSNode nat) :=
  [ mkNode None None [(1, 1)] [] 2 2;
    mkNode (Some 0) (Some 1) [(1, 2)] [] 2 2;
    mkNode (Some 1) (Some 1) [] [1] 1 1 ].

(** The tree of two passes after the expansion of its last node. *)
Definition expanded_tree : list (MCTSNode nat) :=
  [ mkNode None None [(1, 1)] [] 2 2;
    mkNode (Some 0) (Some 1) [(1, 2)] [] 2 2;
    mkNode (Some 1) (Some 1) [(1, 3)] [] 1 1;
    mkNode (Some 2) (Some 1) [] [1] 0 0 ].

(** The tree after the third pass. *)
Definition three_pass_tree : list (MCTSNode nat) :=
  [ mkNode None None [(1, 1)] [] 3 3;
    mkNode (Some 0) (Some 1) [(1, 2)] [] 3 3;
    mkNode (Some 1) (Some 1) [(1, 3)] [] 2 2;
    mkNode (Some 2) (Some 1) [] [1] 1 1 ].

(** The trees of the same search by the wall-clock engine, which plays
    every rollout to the end and loses it: after one, two and three passes,
    and after the fourth. *)
Definition lost_tree_1 : list (MCTSNode nat) :=
  [ mkNode None None [(1, 1)] [] 0 1;
    mkNode (Some 0) (Some 1) [] [1] 0 1 ].

Definition lost_tree_2 : list (MCTSNode nat) :=
  [ mkNode None None [(1, 1)] [] 0 2;
    mkNode (Some 0) (Some 1) [] [1] 0 1 ].

Definition lost_tree_3 : list (MCTSNode nat) :=
  [ mkNode None None [(1, 1)] [] 0 3;
    mkNode (Some 0) (Some 1) [(1, 2)] [] 0 2;
    mkNode (Some 1) (Some 1) [] [1] 0 1 ].

Definition lost_tree_4 : list (MCTSNode nat) :=
  [ mkNode None None [(1, 1)] [] 0 4;
    mkNode (Some 0) (Some 1) [(1, 2)] [] 0 3;
    mkNode (Some 1) (Some 1) [(1, 3)] [] 0 2;
    mkNode (Some 2) (Some 1) [] [1] 0 1 ].

End TakeOne.

(** The call stack of a script that calls [think] at its top level under
    the default recursion limit of 1000: the frame of the script and the
    frame of [think] are taken. *)
Definition script_stack : CallStack :=
  {| frames := 998; frames_pos := Nat.lt_0_succ 997 |}.

(** The call stack of the same script after
    [sys.setrecursionlimit(2000)]. *)
Definition deep_stack : CallStack :=
  {| frames := 1998; frames_pos := Nat.lt_0_succ 1997 |}.

(** A clock that shows 0 at its first two readings and 2 afterwards. *)
Definition late_clock : Clock :=
  fun i => if Nat.ltb i 2 then 0%float else 2%float.

(** A clock that shows 0.1, then 1.1, and 5 afterwards, as the nearest
    floats. *)
Definition tenth_clock : Clock :=
  fun i => match i with
           | 0 => 0x1.999999999999ap-4%float
           | 1 => 0x1.199999999999ap+0%float
           | _ => 5%float
           end.

(** A tree in which the child of the root has not been visited. *)
Definition unvisited_child_tree : list (MCTSNode nat) :=
  [ mkNode None None [(1, 1)] [] 0 1;
    mkNode (Some 0) (Some 1) [] [] 0 0 ].

(** * Properties *)

#[local] Arguments explore : simpl never.
#[local] Arguments lookup_node : simpl never.
#[local] Arguments mcts_step : simpl never.

Section Proofs.

Context {State Action Cell : Type} `{EqDecision Action} {stack : CallStack}.

Implicit Types (tree : list (MCTSNode Action)) (n : MCTSNode Action).
Implicit Types (board : Board State Action Cell) (state : State) (g : Rng).

(** ** The result monad *)

Lemma bind_Ok {A B : Type} (m : res A) (f : A -> res B) (b : B) :
  m ≫= f = Ok b -> ∃ a, m = Ok a ∧ f a = Ok b.
Proof. destruct m as [a| |]; simpl; intros Hf; try discriminate; eauto. Qed.

Lemma lookup_node_Ok tree i n :
  lookup_node tree i = Ok n <-> tree !! i = Some n.
Proof.
  unfold lookup_node. destruct (tree !! i); split; intros Hx;
    try discriminate; congruence.
Qed.

Lemma lookup_node_lt tree i :
  i < length tree -> ∃ n, tree !! i = Some n ∧ lookup_node tree i = Ok n.
Proof.
  intros Hi. destruct (lookup_lt_is_Some_2 tree i Hi) as [n Hn].
  exists n. split; [exact Hn|]. by apply lookup_node_Ok.
Qed.

(** ** Backpropagation *)

Lemma links_ok_insert tree i n n' :
  links_ok tree -> tree !! i = Some n -> parent n' = parent n ->
  links_ok (<[i := n']> tree).
Proof.
  intros Hl Hi Hp j m p Hj Hm.
  destruct (decide (i = j)) as [->|Hne].
  - rewrite list_lookup_insert_eq in Hj by (eapply lookup_lt_Some; eauto).
    injection Hj as <-. apply (Hl j n p Hi). congruence.
  - rewrite list_lookup_insert_ne in Hj by done. eauto.
Qed.

Lemma parent_chain_insert fuel tree i n n' node :
  tree !! i = Some n -> parent n' = parent n ->
  parent_chain fuel (<[i := n']> tree) node = parent_chain fuel tree node.
Proof.
  intros Hi Hp. revert node. induction fuel as [|fuel IH]; intros node; [done|].
  simpl. destruct (decide (i = node)) as [->|Hne].
  - rewrite list_lookup_insert_eq by (eapply lookup_lt_Some; eauto).
    rewrite Hi, Hp. destruct (parent n); by rewrite ?IH.
  - rewrite list_lookup_insert_ne by done.
    destruct (tree !! node) as [m|]; [|done].
    destruct (parent m); by rewrite ?IH.
Qed.

Lemma parent_chain_le fuel tree node j :
  links_ok tree -> j ∈ parent_chain fuel tree node -> j ≤ node.
Proof.
  intros Hl. revert node. induction fuel as [|fuel IH]; intros node; simpl.
  - intros Hj. by apply elem_of_nil in Hj.
  - destruct (tree !! node) as [n|] eqn:Hn; [|intros Hj; by apply elem_of_nil in Hj].
    intros [->|Hj]%elem_of_cons; [lia|].
    destruct (parent n) as [p|] eqn:Hp; [|by apply elem_of_nil in Hj].
    specialize (IH p Hj). pose proof (Hl node n p Hn Hp). lia.
Qed.

Lemma backpropagate_lookup fuel tree node won :
  links_ok tree -> node < length tree -> node < fuel ->
  ∃ tree', backpropagate fuel tree node won = Ok tree' ∧
           length tree' = length tree ∧
           ∀ i, tree' !! i =
                if decide (i ∈ parent_chain fuel tree node)
                then credit won <$> tree !! i else tree !! i.
Proof.
  revert tree node. induction fuel as [|fuel IH]; intros tree node Hl Hlen Hf; [lia|].
  destruct (lookup_node_lt tree node Hlen) as (n & Hn & Hln).
  simpl. rewrite Hln. simpl. rewrite Hn.
  assert (Hins : ∀ i, i ≠ node -> <[node := credit won n]> tree !! i = tree !! i)
    by (intros; by apply list_lookup_insert_ne).
  assert (Hnode : <[node := credit won n]> tree !! node = Some (credit won n))
    by (by apply list_lookup_insert_eq).
  destruct (parent n) as [p|] eqn:Hp.
  - pose proof (Hl node n p Hn Hp) as Hpn.
    destruct (IH (<[node := credit won n]> tree) p) as (tree' & Hb & Hlen' & Hlk).
    + by eapply links_ok_insert.
    + rewrite length_insert. lia.
    + lia.
    + exists tree'. split; [exact Hb|]. split; [by rewrite Hlen', length_insert|].
      intros i. rewrite Hlk.
      rewrite (parent_chain_insert fuel tree node n (credit won n)) by done.
      destruct (decide (i = node)) as [->|Hne].
      * rewrite Hnode, Hn.
        rewrite decide_False, decide_True; [done|apply elem_of_cons; by left|].
        intros Hin%parent_chain_le; [lia|done].
      * rewrite Hins by done.
        destruct (decide (i ∈ parent_chain fuel tree p)) as [Hin|Hnin].
        -- rewrite decide_True; [done|]. apply elem_of_cons. by right.
        -- rewrite decide_False; [done|]. intros [?|?]%elem_of_cons; done.
  - exists (<[node := credit won n]> tree). split; [done|].
    split; [by rewrite length_insert|]. intros i.
    destruct (decide (i = node)) as [->|Hne].
    + rewrite Hnode, Hn, decide_True; [done|]. apply elem_of_cons; by left.
    + rewrite Hins by done. rewrite decide_False; [done|].
      intros [?|Hx]%elem_of_cons; [done|]. by apply elem_of_nil in Hx.
Qed.

Lemma parent_chain_ends fuel tree node :
  links_ok tree -> node < length tree -> node < fuel ->
  head (parent_chain fuel tree node) = Some node ∧
  ∃ r rn, last (parent_chain fuel tree node) = Some r ∧
          tree !! r = Some rn ∧ parent rn = None.
Proof.
  intros Hl. revert node. induction fuel as [|fuel IH]; intros node Hlen Hf; [lia|].
  destruct (lookup_node_lt tree node Hlen) as (n & Hn & _).
  simpl. rewrite Hn. split; [done|].
  destruct (parent n) as [p|] eqn:Hp.
  - pose proof (Hl node n p Hn Hp) as Hpn.
    destruct (IH p) as (Hh & r & rn & Hlast & Hr & Hpr); [lia|lia|].
    exists r, rn. split; [|done].
    destruct (parent_chain fuel tree p) as [|x xs] eqn:Hc; [done|].
    by rewrite last_cons_cons.
  - exists node, n. done.
Qed.

(** ** Selection *)

Lemma explore_Ok (w n t : nat) (c : R) :
  1 ≤ n -> 1 ≤ t ->
  explore w n t c = Ok (INR w / INR n + c * sqrt (ln (INR t) / INR n))%R.
Proof.
  intros Hn Ht. unfold explore.
  rewrite !decide_False by lia. done.
Qed.

(** The argument of the square root is never negative, so that [sqrt]
    cannot raise ValueError, and no score is negative. *)
Lemma explore_sqrt_defined (n t : nat) :
  1 ≤ n -> 1 ≤ t -> (0 <= ln (INR t) / INR n)%R.
Proof.
  intros Hn Ht.
  assert (0 < INR n)%R by (apply lt_0_INR; lia).
  assert (1 <= INR t)%R as [Hlt|<-] by (apply (le_INR 1 t); lia).
  - apply Rlt_le, Rdiv_lt_0_compat; [|done].
    rewrite <- ln_1. apply ln_increasing; lra.
  - rewrite ln_1. unfold Rdiv. rewrite Rmult_0_l. lra.
Qed.

Lemma explore_nonneg (w n t : nat) (v : R) :
  explore w n t explore_faction = Ok v -> (0 <= v)%R.
Proof.
  unfold explore.
  destruct (decide (n = 0)); [discriminate|].
  destruct (decide (t = 0)); [discriminate|]. intros [= <-].
  assert (0 < INR n)%R by (apply lt_0_INR; lia).
  pose proof (pos_INR w).
  pose proof (sqrt_pos (ln (INR t) / INR n)).
  assert (0 <= INR w / INR n)%R.
  { unfold Rdiv. apply Rmult_le_pos; [done|]. by apply Rlt_le, Rinv_0_lt_compat. }
  unfold explore_faction. lra.
Qed.

Lemma uct_scan_scores tree t children b0 m0 b m :
  uct_scan tree t children b0 m0 = Ok (b, m) ->
  ∃ vs, child_scores tree t children = Ok vs ∧
    ((b = b0 ∧ m = m0 ∧ Forall (λ v, (v <= b0)%R) vs) ∨
     (∃ i a, children !! i = Some (a, m) ∧ vs !! i = Some b ∧ (b0 < b)%R ∧
             (∀ j v, j < i -> vs !! j = Some v -> (v < b)%R) ∧
             (∀ j v, vs !! j = Some v -> (v <= b)%R))).
Proof.
  revert b0 m0. induction children as [|[a c] rest IH]; intros b0 m0; simpl.
  - intros [= <- <-]. exists []. split; [done|]. left. by repeat constructor.
  - destruct (lookup_node tree c) as [cn| |]; simpl; try discriminate.
    destruct (explore (wins cn) (visits cn) t explore_faction) as [v| |];
      simpl; try discriminate.
    intros Hs.
    destruct (Rgt_dec v b0) as [Hgt|Hle];
      apply IH in Hs as (vs & -> & Hcase); exists (v :: vs); (split; [done|]).
    + right. destruct Hcase as [(-> & -> & Hall)|(i & a' & Hi & Hvi & Hlt & Hbefore & Hmax)].
      * exists 0, a. repeat split; try done.
        -- intros j v' Hj. lia.
        -- intros [|j] v'; simpl; [intros [= <-]; lra|].
           intros Hj. eapply Forall_lookup_1 in Hall; eauto.
      * exists (S i), a'. repeat split; try done.
        -- lra.
        -- intros [|j] v' Hj; simpl; [intros [= <-]; lra|].
           apply Hbefore. lia.
        -- intros [|j] v'; simpl; [intros [= <-]; lra|]. apply Hmax.
    + destruct Hcase as [(-> & -> & Hall)|(i & a' & Hi & Hvi & Hlt & Hbefore & Hmax)].
      * left. repeat split. constructor; [lra|done].
      * right. exists (S i), a'. repeat split; try done.
        -- intros [|j] v' Hj; simpl; [intros [= <-]; lra|].
           apply Hbefore. lia.
        -- intros [|j] v'; simpl; [intros [= <-]; lra|]. apply Hmax.
Qed.

Lemma uct_scan_total tree t children vs b0 m0 :
  child_scores tree t children = Ok vs ->
  ∃ b m, uct_scan tree t children b0 m0 = Ok (b, m).
Proof.
  revert vs b0 m0. induction children as [|[a c] rest IH]; intros vs b0 m0; simpl.
  - eauto.
  - destruct (lookup_node tree c) as [cn| |]; simpl; try discriminate.
    destruct (explore (wins cn) (visits cn) t explore_faction) as [v| |];
      simpl; try discriminate.
    destruct (child_scores tree t rest) as [vs'| |] eqn:Hvs;
      simpl; try discriminate.
    intros _. destruct (Rgt_dec v b0); eauto.
Qed.

Lemma tree_ok_links tree : tree_ok tree -> links_ok tree.
Proof.
  intros Hok i n p Hi Hp.
  destruct (decide (i = root_node)) as [->|Hne].
  - destruct (ok_root _ Hok) as (r & Hr & Hnone). congruence.
  - destruct (ok_parent _ Hok i n Hi Hne) as (p' & pn & Hp' & Hlt & _).
    congruence.
Qed.

(** A child registered under a node is a later object whose parent link
    points back, and it has been visited no more often than the node. *)
Lemma tree_ok_child tree node n a c :
  tree_ok tree -> tree !! node = Some n -> (a, c) ∈ child_nodes n ->
  ∃ cn, tree !! c = Some cn ∧ parent cn = Some node ∧ node < c ∧
        c ≠ root_node ∧ visits cn ≤ visits n.
Proof.
  intros Hok Hn Hin.
  destruct (ok_children _ Hok node n a c Hn Hin) as (cn & Hc & Hp & _).
  assert (c ≠ root_node) as Hne.
  { intros ->. destruct (ok_root _ Hok) as (r & Hr & Hnone). congruence. }
  destruct (ok_parent _ Hok c cn Hc Hne) as (p & pn & Hp' & Hlt & Hpn & Hv).
  assert (p = node) as -> by congruence.
  exists cn. repeat split; try done. congruence.
Qed.

Lemma child_scores_ok tree node n children :
  tree_ok tree -> all_visited None tree -> tree !! node = Some n ->
  (∀ x, x ∈ children -> x ∈ child_nodes n) ->
  ∃ vs, child_scores tree (visits n) children = Ok vs.
Proof.
  intros Hok Hvis Hn. induction children as [|[a c] rest IH]; intros Hsub; simpl.
  - eauto.
  - destruct (tree_ok_child tree node n a c Hok Hn) as (cn & Hc & _ & _ & Hne & Hle).
    { apply Hsub. by left. }
    assert (1 ≤ visits cn) by (by eapply Hvis).
    apply lookup_node_Ok in Hc. rewrite Hc. simpl.
    rewrite explore_Ok by lia. simpl.
    destruct IH as (vs & ->); [|simpl; eauto].
    intros x Hx. apply Hsub. by right.
Qed.

Lemma traverse_nodes_ok fuel tree node board state identity :
  tree_ok tree -> all_visited None tree ->
  node < length tree -> length tree ≤ fuel + node ->
  ∃ leaf, traverse_nodes fuel tree node board state identity = Ok leaf ∧
          leaf < length tree.
Proof.
  intros Hok Hvis. revert node.
  induction fuel as [|fuel IH]; intros node Hlt Hfuel; [lia|].
  destruct (lookup_node_lt tree node Hlt) as (n & Hn & Hln).
  simpl. rewrite Hln. simpl.
  destruct (untried_actions n); [|eauto].
  destruct (child_scores_ok tree node n (child_nodes n)) as [vs Hvs]; try done.
  destruct (uct_scan_total tree (visits n) (child_nodes n) vs 0%R node Hvs)
    as (b & m & Hscan).
  rewrite Hscan. simpl.
  apply uct_scan_scores in Hscan as (vs' & _ & Hcase).
  destruct Hcase as [(-> & -> & _)|(i & a & Hi & _ & Hpos & _)].
  - destruct (Req_dec_T 0 0); [eauto|done].
  - destruct (Req_dec_T b 0) as [->|_]; [lra|].
    destruct (tree_ok_child tree node n a m Hok Hn) as (cn & Hc & _ & Hgt & _).
    { eapply list_elem_of_lookup_2; eauto. }
    apply IH; [eapply lookup_lt_Some; eauto|lia].
Qed.

(** Whatever the frames, selection returns a node of the store or raises
    RecursionError. *)
Lemma traverse_nodes_cases fuel tree node board state identity :
  tree_ok tree -> all_visited None tree -> node < length tree ->
  (∃ leaf, traverse_nodes fuel tree node board state identity = Ok leaf ∧
           leaf < length tree) ∨
  traverse_nodes fuel tree node board state identity = Raise RecursionError.
Proof.
  intros Hok Hvis. revert node.
  induction fuel as [|fuel IH]; intros node Hlt; [by right|].
  destruct (lookup_node_lt tree node Hlt) as (n & Hn & Hln).
  simpl. rewrite Hln. simpl.
  destruct (untried_actions n); [|left; eauto].
  destruct (child_scores_ok tree node n (child_nodes n)) as [vs Hvs]; try done.
  destruct (uct_scan_total tree (visits n) (child_nodes n) vs 0%R node Hvs)
    as (b & m & Hscan).
  rewrite Hscan. simpl.
  apply uct_scan_scores in Hscan as (vs' & _ & Hcase).
  destruct Hcase as [(-> & -> & _)|(i & a & Hi & _ & Hpos & _)].
  - destruct (Req_dec_T 0 0); [left; eauto|done].
  - destruct (Req_dec_T b 0) as [->|_]; [lra|].
    destruct (tree_ok_child tree node n a m Hok Hn) as (cn & Hc & _ & Hgt & _).
    { eapply list_elem_of_lookup_2; eauto. }
    apply IH. eapply lookup_lt_Some; eauto.
Qed.

(** One activation of selection on a node without untried action. *)
Lemma traverse_nodes_scan fuel tree node n b m board state identity :
  tree !! node = Some n -> untried_actions n = [] ->
  uct_scan tree (visits n) (child_nodes n) 0 node = Ok (b, m) ->
  traverse_nodes (S fuel) tree node board state identity
  = (if Req_dec_T b 0 then Ok m
     else traverse_nodes fuel tree m board state identity).
Proof.
  intros Hn%lookup_node_Ok Hun Hscan. simpl.
  rewrite Hn. simpl. by rewrite Hun, Hscan.
Qed.

Lemma traverse_calls_scan fuel tree node n b m board state identity :
  tree !! node = Some n -> untried_actions n = [] ->
  uct_scan tree (visits n) (child_nodes n) 0 node = Ok (b, m) ->
  traverse_calls (S fuel) tree node board state identity
  = (if Req_dec_T b 0 then Ok [(node, state)]
     else calls ← traverse_calls fuel tree m board state identity;
          Ok ((node, state) :: calls)).
Proof.
  intros Hn%lookup_node_Ok Hun Hscan. simpl.
  rewrite Hn. simpl. by rewrite Hun, Hscan.
Qed.

(** ** Expansion *)

Lemma elem_of_dict_set {V : Type} (k : Action) (v : V) (d : list (Action * V)) x :
  x ∈ dict_set k v d -> x = (k, v) ∨ x ∈ d.
Proof.
  induction d as [|[k' v'] d IH]; simpl.
  - intros ->%list_elem_of_singleton. by left.
  - destruct (decide (k = k')).
    + intros [->|Hx]%elem_of_cons; [by left|]. right. by right.
    + intros [->|Hx]%elem_of_cons; [right; by left|].
      destruct (IH Hx) as [->|Hd]; [by left|]. right. by right.
Qed.

Lemma choice_Ok {A : Type} (seq : list A) g :
  seq ≠ [] -> ∃ x, choice seq g = Ok (x, rng_next g) ∧ x ∈ seq.
Proof.
  destruct seq as [|x0 seq]; [done|]. intros _. eexists. split; [done|].
  apply list_elem_of_In, nth_In, Nat.mod_upper_bound. done.
Qed.

(** The store after an expansion of [leaf]: the objects that were there keep
    their parent link and their counters, and one object is added. *)
Lemma expand_store_old tree leaf n n' new i m :
  tree !! leaf = Some n -> tree !! i = Some m ->
  <[leaf := n']> (tree ++ [new]) !! i = Some (if decide (i = leaf) then n' else m).
Proof.
  intros Hleaf Hi. destruct (decide (i = leaf)) as [->|Hne].
  - apply list_lookup_insert_eq. rewrite length_app.
    apply lookup_lt_Some in Hleaf. lia.
  - rewrite list_lookup_insert_ne by done. by apply lookup_app_l_Some.
Qed.

Lemma expand_store_new tree leaf n n' new :
  tree !! leaf = Some n ->
  <[leaf := n']> (tree ++ [new]) !! length tree = Some new.
Proof.
  intros Hleaf. apply lookup_lt_Some in Hleaf.
  rewrite list_lookup_insert_ne by lia.
  rewrite lookup_app_r by lia. by rewrite Nat.sub_diag.
Qed.

Lemma expand_store_inv tree leaf n n' new i m' :
  tree !! leaf = Some n ->
  <[leaf := n']> (tree ++ [new]) !! i = Some m' ->
  (i = length tree ∧ m' = new) ∨
  (∃ m, tree !! i = Some m ∧ m' = if decide (i = leaf) then n' else m).
Proof.
  intros Hleaf Hi.
  destruct (decide (i < length tree)) as [Hlt|Hge].
  - right. destruct (lookup_lt_is_Some_2 tree i Hlt) as [m Hm]. exists m.
    split; [done|].
    rewrite (expand_store_old tree leaf n n' new i m) in Hi by done. congruence.
  - left. assert (i < length (<[leaf := n']> (tree ++ [new]))) as Hlen
      by (eapply lookup_lt_Some; eauto).
    rewrite length_insert, length_app in Hlen. simpl in Hlen.
    assert (i = length tree) as -> by lia. split; [done|].
    rewrite (expand_store_new tree leaf n n' new) in Hi by done. congruence.
Qed.

Lemma expand_leaf_ok tree leaf n board state g :
  tree_ok tree -> all_visited None tree ->
  tree !! leaf = Some n -> untried_actions n ≠ [] ->
  ∃ tree' state' g',
    expand_leaf tree leaf board state g = Ok (tree', length tree, state', g') ∧
    tree_ok tree' ∧ all_visited (Some (length tree)) tree' ∧
    length tree' = S (length tree) ∧
    (∀ i m, tree !! i = Some m ->
       ∃ m', tree' !! i = Some m' ∧ visits m' = visits m).
Proof.
  intros Hok Hvis Hleaf Hun. unfold expand_leaf.
  apply lookup_node_Ok in Hleaf as Hl. rewrite Hl. simpl.
  destruct (choice_Ok (untried_actions n) g Hun) as (action & -> & _). simpl.
  set (new := MCTSNode_new (Some leaf) (Some action)
                (legal_actions board (next_state board state action))).
  set (n' := add_child action (length tree) n).
  set (tree' := <[leaf := n']> (tree ++ [new])).
  assert (Hold : ∀ i m, tree !! i = Some m ->
            ∃ m', tree' !! i = Some m' ∧ parent m' = parent m ∧
                  visits m' = visits m ∧ wins m' = wins m ∧
                  parent_action m' = parent_action m).
  { intros i m Hi. eexists. split; [by eapply expand_store_old|].
    destruct (decide (i = leaf)) as [->|]; [|done].
    assert (m = n) as -> by congruence. done. }
  exists tree', (next_state board state action), (rng_next g).
  split; [done|]. split; [|split; [|split]].
  - split.
    + destruct (ok_root _ Hok) as (r & Hr & Hnone).
      destruct (Hold _ _ Hr) as (r' & Hr' & Hp & _). exists r'. split; congruence.
    + intros i m' Hi Hne.
      destruct (expand_store_inv _ _ _ _ _ _ _ Hleaf Hi) as [[-> ->]|(m & Hm & ->)].
      * destruct (Hold _ _ Hleaf) as (l' & Hl' & _ & Hv' & _).
        exists leaf, l'. simpl. repeat split; try done; [|lia].
        eapply lookup_lt_Some; eauto.
      * destruct (ok_parent _ Hok i m Hm Hne) as (p & pn & Hp & Hlt & Hpn & Hv).
        destruct (Hold _ _ Hpn) as (pn' & Hpn' & _ & Hv' & _).
        exists p, pn'. repeat split; try done.
        -- destruct (decide (i = leaf)) as [->|]; [|done].
           assert (m = n) as -> by congruence. done.
        -- destruct (decide (i = leaf)) as [->|]; [|lia].
           assert (m = n) as -> by congruence. simpl. lia.
    + intros i m' a c Hi Hin.
      destruct (expand_store_inv _ _ _ _ _ _ _ Hleaf Hi) as [[-> ->]|(m & Hm & ->)].
      * simpl in Hin. by apply elem_of_nil in Hin.
      * assert (Hcase : (i = leaf ∧ (a, c) = (action, length tree)) ∨
                        (a, c) ∈ child_nodes m).
        { destruct (decide (i = leaf)) as [->|]; [|by right].
          assert (m = n) as -> by congruence.
          simpl in Hin. apply elem_of_dict_set in Hin as [?|?]; [left|right]; done. }
        destruct Hcase as [[-> [= -> ->]]|Hin'].
        -- exists new. split; [by eapply expand_store_new|done].
        -- destruct (ok_children _ Hok i m a c Hm Hin') as (cn & Hc & Hp & Hpa).
           destruct (Hold _ _ Hc) as (cn' & Hc' & Hp' & _ & _ & Hpa').
           exists cn'. split; [done|]. split; congruence.
    + intros i m' Hi.
      destruct (expand_store_inv _ _ _ _ _ _ _ Hleaf Hi) as [[-> ->]|(m & Hm & ->)].
      * simpl. lia.
      * pose proof (ok_wins _ Hok i m Hm).
        destruct (decide (i = leaf)) as [->|]; [|done].
        assert (m = n) as -> by congruence. done.
  - intros i m' Hi Hne Hfresh.
    destruct (expand_store_inv _ _ _ _ _ _ _ Hleaf Hi) as [[-> ->]|(m & Hm & ->)].
    + done.
    + pose proof (Hvis i m Hm Hne) as Hv.
      destruct (decide (i = leaf)) as [->|]; [|by apply Hv].
      assert (m = n) as -> by congruence. by apply Hv.
  - unfold tree'. rewrite length_insert, length_app. simpl. lia.
  - intros i m Hi. destruct (Hold _ _ Hi) as (m' & Hm' & _ & Hv & _). eauto.
Qed.

(** ** Backpropagation keeps the shape of the tree *)

Lemma parent_chain_self fuel tree node :
  node < length tree -> 0 < fuel -> node ∈ parent_chain fuel tree node.
Proof.
  intros Hlen Hf. destruct fuel as [|fuel]; [lia|].
  destruct (lookup_node_lt tree node Hlen) as (n & Hn & _).
  simpl. rewrite Hn. by left.
Qed.

Lemma parent_chain_parent fuel tree node i n p :
  links_ok tree -> node < length tree -> node < fuel ->
  i ∈ parent_chain fuel tree node -> tree !! i = Some n -> parent n = Some p ->
  p ∈ parent_chain fuel tree node.
Proof.
  intros Hl. revert node.
  induction fuel as [|fuel IH]; intros node Hlen Hf; [lia|].
  destruct (lookup_node_lt tree node Hlen) as (nn & Hnn & _).
  simpl. rewrite Hnn. intros [->|Hin]%elem_of_cons Hi Hp.
  - assert (n = nn) as -> by congruence. rewrite Hp.
    pose proof (Hl node nn p Hnn Hp). right.
    apply parent_chain_self; lia.
  - destruct (parent nn) as [p0|] eqn:Hp0; [|by apply elem_of_nil in Hin].
    pose proof (Hl node nn p0 Hnn Hp0). right.
    apply (IH p0); try done; lia.
Qed.

Lemma parent_chain_root tree node :
  tree_ok tree -> node < length tree ->
  root_node ∈ parent_chain (length tree) tree node.
Proof.
  intros Hok Hlen.
  destruct (parent_chain_ends (length tree) tree node)
    as (_ & r & rn & Hlast & Hr & Hnone); [by apply tree_ok_links|done..|].
  assert (r = root_node) as ->.
  { destruct (decide (r = root_node)); [done|].
    destruct (ok_parent _ Hok r rn Hr) as (p & ? & Hp & _); congruence. }
  apply last_Some in Hlast as [l' ->]. apply elem_of_app. right. by left.
Qed.

Lemma backpropagate_nodes tree node won :
  links_ok tree -> node < length tree ->
  ∃ tree', backpropagate (length tree) tree node won = Ok tree' ∧
    length tree' = length tree ∧
    (∀ i n, tree !! i = Some n ->
       tree' !! i = Some (if decide (i ∈ parent_chain (length tree) tree node)
                          then credit won n else n)) ∧
    (∀ i n', tree' !! i = Some n' -> ∃ n, tree !! i = Some n).
Proof.
  intros Hl Hlen.
  destruct (backpropagate_lookup (length tree) tree node won)
    as (tree' & Hb & Hlen' & Hlk); try done.
  exists tree'. repeat split; try done.
  - intros i n Hi. rewrite Hlk, Hi. by destruct (decide _).
  - intros i n' Hi. apply lookup_lt_Some in Hi. rewrite Hlen' in Hi.
    by apply lookup_lt_is_Some_2.
Qed.

Lemma backpropagate_ok tree node won :
  tree_ok tree -> all_visited (Some node) tree -> node < length tree ->
  ∃ tree', backpropagate (length tree) tree node won = Ok tree' ∧
    tree_ok tree' ∧ all_visited None tree' ∧ length tree' = length tree ∧
    (∀ r, tree !! root_node = Some r ->
       ∃ r', tree' !! root_node = Some r' ∧ visits r' = visits r + 1).
Proof.
  intros Hok Hvis Hlen. pose proof (tree_ok_links _ Hok) as Hl.
  destruct (backpropagate_nodes tree node won Hl Hlen)
    as (tree' & Hb & Hlen' & Hold & Hnew).
  set (chain := parent_chain (length tree) tree node) in *.
  exists tree'. split; [done|]. split; [|split; [|split; [done|]]].
  - split.
    + destruct (ok_root _ Hok) as (r & Hr & Hnone).
      eexists. split; [by apply Hold|]. by destruct (decide _).
    + intros i n' Hi Hne. destruct (Hnew _ _ Hi) as (n & Hn).
      rewrite (Hold _ _ Hn) in Hi. injection Hi as <-.
      destruct (ok_parent _ Hok i n Hn Hne) as (p & pn & Hp & Hlt & Hpn & Hv).
      eexists p, _. split; [by destruct (decide _)|]. split; [done|].
      split; [by apply Hold|].
      destruct (decide (i ∈ chain)) as [Hin|Hnin].
      * rewrite decide_True; [simpl; lia|].
        eapply parent_chain_parent; eauto.
      * destruct (decide (p ∈ chain)); simpl; lia.
    + intros i n' a c Hi Hin. destruct (Hnew _ _ Hi) as (n & Hn).
      rewrite (Hold _ _ Hn) in Hi. injection Hi as <-.
      assert ((a, c) ∈ child_nodes n) as Hin' by (by destruct (decide (i ∈ chain))).
      destruct (ok_children _ Hok i n a c Hn Hin') as (cn & Hc & Hp & Hpa).
      eexists. split; [by apply Hold|].
      destruct (decide (c ∈ chain)); split; done.
    + intros i n' Hi. destruct (Hnew _ _ Hi) as (n & Hn).
      rewrite (Hold _ _ Hn) in Hi. injection Hi as <-.
      pose proof (ok_wins _ Hok i n Hn).
      destruct (decide _); [|done]. destruct won; simpl; lia.
  - intros i n' Hi Hne _. destruct (Hnew _ _ Hi) as (n & Hn).
    rewrite (Hold _ _ Hn) in Hi. injection Hi as <-.
    destruct (decide (i = node)) as [->|Hne'].
    + rewrite decide_True; [simpl; lia|]. apply parent_chain_self; lia.
    + assert (1 ≤ visits n) by (apply (Hvis i n Hn Hne); congruence).
      destruct (decide _); simpl; lia.
  - intros r Hr. eexists. split; [by apply Hold|].
    rewrite decide_True; [done|]. by apply parent_chain_root.
Qed.

(** More frames do not change what backpropagation returns. *)
Lemma backpropagate_frames fuel fuel' tree node won tree' :
  backpropagate fuel tree node won = Ok tree' -> fuel ≤ fuel' ->
  backpropagate fuel' tree node won = Ok tree'.
Proof.
  revert fuel' tree node.
  induction fuel as [|fuel IH]; intros fuel' tree node; [done|].
  intros Hb Hle. destruct fuel' as [|fuel']; [lia|]. simpl in *.
  destruct (lookup_node tree node) as [n| |]; simpl in *; try done.
  destruct (parent n); [|done]. apply IH; [done|lia].
Qed.

(** Whatever the frames, backpropagation returns or raises
    RecursionError. *)
Lemma backpropagate_cases fuel tree node won :
  links_ok tree -> node < length tree ->
  (∃ tree', backpropagate fuel tree node won = Ok tree') ∨
  backpropagate fuel tree node won = Raise RecursionError.
Proof.
  revert tree node.
  induction fuel as [|fuel IH]; intros tree node Hl Hlen; [by right|].
  destruct (lookup_node_lt tree node Hlen) as (n & Hn & Hln).
  simpl. rewrite Hln. simpl.
  destruct (parent n) as [p|] eqn:Hp; [|left; eauto].
  apply IH; [by eapply links_ok_insert|].
  rewrite length_insert. pose proof (Hl node n p Hn Hp). lia.
Qed.

(** A backpropagation that returns is the one over the whole parent
    chain. *)
Lemma backpropagate_store fuel tree node won tree' :
  links_ok tree -> backpropagate fuel tree node won = Ok tree' ->
  node < length tree ∧ backpropagate (length tree) tree node won = Ok tree'.
Proof.
  intros Hl Hb.
  assert (node < length tree) as Hlen.
  { destruct fuel as [|fuel]; [done|]. simpl in Hb.
    destruct (lookup_node tree node) as [n| |] eqn:Hlk; try done.
    apply lookup_node_Ok in Hlk. eapply lookup_lt_Some; eauto. }
  split; [done|].
  destruct (backpropagate_nodes tree node won Hl Hlen) as (tree'' & Hb' & _).
  apply (backpropagate_frames _ (max fuel (length tree))) in Hb; [|lia].
  pose proof (backpropagate_frames _ (max fuel (length tree)) _ _ _ _ Hb') as Hb''.
  rewrite Hb'' in Hb by lia. by injection Hb as ->.
Qed.

(** ** One pass of the loop *)

Lemma rollout_returns fuel board state g :
  rollout fuel board state g = Ok (state, g).
Proof. unfold rollout. by destruct fuel. Qed.

Lemma initial_tree_ok board state :
  tree_ok (initial_tree board state) ∧ all_visited None (initial_tree board state).
Proof.
  split; [split|].
  - by eexists.
  - intros [|i] n Hi Hne; [done|]. simpl in Hi. by rewrite lookup_nil in Hi.
  - intros [|i] n a c Hi Hin.
    + injection Hi as <-. by apply elem_of_nil in Hin.
    + simpl in Hi. by rewrite lookup_nil in Hi.
  - intros [|i] n Hi.
    + injection Hi as <-. done.
    + simpl in Hi. by rewrite lookup_nil in Hi.
  - intros [|i] n Hi Hne; [done|]. simpl in Hi. by rewrite lookup_nil in Hi.
Qed.

(** After a selection that returns, the expansion of the pass succeeds
    and leaves a well-shaped tree in which only the node handed to
    backpropagation may be unvisited. *)
Lemma mcts_step_phases strat board state identity tree g leaf :
  engine strat -> tree_ok tree -> all_visited None tree ->
  traverse_nodes frames tree root_node board state identity = Ok leaf ->
  ∃ tree1 node sampled g1,
    tree_ok tree1 ∧ all_visited (Some node) tree1 ∧ node < length tree1 ∧
    length tree ≤ length tree1 ≤ S (length tree) ∧
    (∀ i m, tree !! i = Some m ->
       ∃ m', tree1 !! i = Some m' ∧ visits m' = visits m) ∧
    mcts_step strat board state identity (tree, g) =
      ('(sampled_game, g2) ← simulate strat board sampled g1;
       tree2 ← backpropagate frames tree1 node
                 (bool_decide (current_player board sampled_game ≠ identity));
       Ok (tree2, g2)).
Proof.
  intros Hstrat Hok Hvis Htrav. unfold mcts_step.
  assert (root_node < length tree) as Hroot.
  { destruct (ok_root _ Hok) as (r & Hr & _). eapply lookup_lt_Some; eauto. }
  assert (leaf < length tree) as Hleaf.
  { destruct (traverse_nodes_cases frames tree root_node board state identity)
      as [(leaf' & Hl' & Hlt)|Hl']; try done; congruence. }
  rewrite Htrav. simpl.
  destruct (lookup_node_lt tree leaf Hleaf) as (ln & Hln & ->). simpl.
  assert (Hstay : ∀ node, node < length tree ->
    tree_ok tree ∧ all_visited (Some node) tree ∧ node < length tree ∧
    length tree ≤ length tree ≤ S (length tree) ∧
    (∀ i m, tree !! i = Some m ->
       ∃ m', tree !! i = Some m' ∧ visits m' = visits m)).
  { intros node Hnode. split; [done|]. split; [|split; [done|split; [lia|eauto]]].
    intros i m Hi Hne _. by apply (Hvis i m). }
  destruct (untried_actions ln) as [|a0 rest] eqn:Hun.
  { exists tree, root_node, state, g.
    destruct (Hstay root_node Hroot) as (? & ? & ? & ? & ?). done. }
  destruct (expand_leaf_ok tree leaf ln board state g)
    as (tree' & state' & g' & Hexp & Hok' & Hvis' & Hlen' & Hkeep);
    try done; [by rewrite Hun|].
  destruct Hstrat as [fuel|fuel]; simpl.
  - rewrite Hexp. exists tree', (length tree), state', g'.
    split; [done|]. split; [done|]. split; [lia|]. split; [lia|]. done.
  - unfold expand_leaf_vanilla. destruct (is_ended board state); simpl.
    + exists tree, leaf, state, g.
      destruct (Hstay leaf Hleaf) as (? & ? & ? & ? & ?). done.
    + rewrite Hexp. exists tree', (length tree), state', g'.
      split; [done|]. split; [done|]. split; [lia|]. split; [lia|]. done.
Qed.

Lemma mcts_step_selected strat board state identity tree g tree' g' :
  mcts_step strat board state identity (tree, g) = Ok (tree', g') ->
  ∃ leaf, traverse_nodes frames tree root_node board state identity = Ok leaf.
Proof.
  unfold mcts_step. intros Hstep.
  destruct (traverse_nodes frames tree root_node board state identity)
    as [leaf| |]; [eauto|done|done].
Qed.

Lemma mcts_step_inv strat board state identity tree g tree' g' :
  engine strat -> tree_ok tree -> all_visited None tree ->
  mcts_step strat board state identity (tree, g) = Ok (tree', g') ->
  tree_ok tree' ∧ all_visited None tree' ∧
  (∀ r, tree !! root_node = Some r ->
     ∃ r', tree' !! root_node = Some r' ∧ visits r' = visits r + 1).
Proof.
  intros Hstrat Hok Hvis Hstep.
  destruct (mcts_step_selected _ _ _ _ _ _ _ _ Hstep) as [leaf Htrav].
  revert Hstep.
  destruct (mcts_step_phases strat board state identity tree g leaf)
    as (tree1 & node & sampled & g1 & Hok1 & Hvis1 & Hnode & _ & Hkeep & ->);
    try done.
  destruct (simulate strat board sampled g1) as [[s g2]| |]; simpl; try done.
  destruct (backpropagate frames tree1 node
              (bool_decide (current_player board s ≠ identity)))
    as [tree2| |] eqn:Hb; simpl; try done.
  apply backpropagate_store in Hb as [_ Hb]; [|by apply tree_ok_links].
  destruct (backpropagate_ok tree1 node
              (bool_decide (current_player board s ≠ identity)))
    as (tree2' & Hb' & Hok2 & Hvis2 & _ & Hroot); try done.
  rewrite Hb in Hb'. injection Hb' as <-.
  intros [= <- <-]. split; [done|]. split; [done|].
  intros r Hr. destruct (Hkeep _ _ Hr) as (r1 & Hr1 & Hv1).
  destruct (Hroot _ Hr1) as (r' & Hr' & Hv'). exists r'. split; [done|lia].
Qed.

(** A pass of the iteration-budget engine returns, or raises
    RecursionError. *)
Lemma mcts_step_modified_cases fuel board state identity tree g :
  tree_ok tree -> all_visited None tree ->
  (∃ tree' g', mcts_step (modified fuel) board state identity (tree, g)
               = Ok (tree', g')) ∨
  mcts_step (modified fuel) board state identity (tree, g)
  = Raise RecursionError.
Proof.
  intros Hok Hvis.
  assert (root_node < length tree) as Hroot.
  { destruct (ok_root _ Hok) as (r & Hr & _). eapply lookup_lt_Some; eauto. }
  destruct (traverse_nodes_cases frames tree root_node board state identity)
    as [(leaf & Htrav & _)|Htrav]; try done.
  - destruct (mcts_step_phases (modified fuel) board state identity tree g leaf)
      as (tree1 & node & sampled & g1 & Hok1 & Hvis1 & Hnode & _ & _ & ->);
      try done; [constructor|].
    simpl. rewrite rollout_returns. simpl.
    destruct (backpropagate_cases frames tree1 node
                (bool_decide (current_player board sampled ≠ identity)))
      as [(tree2 & ->)| ->]; try done; [by apply tree_ok_links| |by right].
    left. simpl. eauto.
  - right. unfold mcts_step. by rewrite Htrav.
Qed.

(** It returns when the store is smaller than the frames. *)
Lemma mcts_step_modified_total fuel board state identity tree g :
  tree_ok tree -> all_visited None tree -> length tree < frames ->
  ∃ tree' g', mcts_step (modified fuel) board state identity (tree, g)
              = Ok (tree', g') ∧ length tree' ≤ S (length tree).
Proof.
  intros Hok Hvis Hroom.
  assert (root_node < length tree) as Hroot.
  { destruct (ok_root _ Hok) as (r & Hr & _). eapply lookup_lt_Some; eauto. }
  destruct (traverse_nodes_ok frames tree root_node board state identity)
    as (leaf & Htrav & _); try done; [lia|].
  destruct (mcts_step_phases (modified fuel) board state identity tree g leaf)
    as (tree1 & node & sampled & g1 & Hok1 & Hvis1 & Hnode & Hlen & _ & ->);
    try done; [constructor|].
  simpl. rewrite rollout_returns. simpl.
  destruct (backpropagate_ok tree1 node
              (bool_decide (current_player board sampled ≠ identity)))
    as (tree2 & Hb & _ & _ & Hlen2 & _); try done.
  apply (backpropagate_frames _ frames) in Hb; [|lia].
  rewrite Hb. simpl. exists tree2, g1. split; [done|lia].
Qed.

Lemma searched_ok strat board state tree :
  engine strat -> searched strat board state tree ->
  tree_ok tree ∧ all_visited None tree.
Proof.
  intros Hstrat. induction 1 as [|tree g tree' g' _ [Hok Hvis] Hstep].
  - apply initial_tree_ok.
  - eapply mcts_step_inv in Hstep as (? & ? & _); eauto.
Qed.

(** ** The statements about backpropagation and selection *)





(** ** The final choice *)

Lemma win_ratio_nonneg n : (0 <= win_ratio n)%Q.
Proof. unfold win_ratio, Qle. simpl. lia. Qed.

Lemma best_action_spec tree children best0 act0 :
  (∀ a c, (a, c) ∈ children -> ∃ cn, tree !! c = Some cn ∧ 1 ≤ visits cn) ->
  (best_action tree children best0 act0 = Ok act0 ∧
   ∀ j a c cn, children !! j = Some (a, c) -> tree !! c = Some cn ->
               (win_ratio cn < best0)%Q) ∨
  (∃ i a c cn, children !! i = Some (a, c) ∧ tree !! c = Some cn ∧
     best_action tree children best0 act0 = Ok (parent_action cn) ∧
     (best0 <= win_ratio cn)%Q ∧
     ∀ j a' c' cn', children !! j = Some (a', c') -> tree !! c' = Some cn' ->
       (win_ratio cn' <= win_ratio cn)%Q ∧
       (i < j -> (win_ratio cn' < win_ratio cn)%Q)).
Proof.
  revert best0 act0.
  induction children as [|[a c] rest IH]; intros best0 act0 Hch; simpl.
  - left. split; [done|]. intros j a c cn Hj. by rewrite lookup_nil in Hj.
  - destruct (Hch a c) as (cn & Hc & Hv); [by left|].
    apply lookup_node_Ok in Hc as Hlc. rewrite Hlc. simpl.
    rewrite decide_False by lia. fold (win_ratio cn).
    assert (Hrest : ∀ a c, (a, c) ∈ rest ->
              ∃ cn, tree !! c = Some cn ∧ 1 ≤ visits cn).
    { intros a' c' Hin. apply (Hch a'). by right. }
    destruct (Qle_bool best0 (win_ratio cn)) eqn:Hcmp.
    + apply Qle_bool_iff in Hcmp.
      destruct (IH (win_ratio cn) (parent_action cn) Hrest)
        as [[-> Hlow]|(i & a' & c' & cn' & Hi & Hc' & -> & Hge & Hmax)].
      * right. exists 0, a, c, cn.
        split; [done|]. split; [done|]. split; [done|]. split; [done|].
        intros [|j] a2 c2 cn2 Hj Hc2; simpl in Hj.
        -- assert (cn2 = cn) as -> by congruence.
           split; [apply Qle_refl|lia].
        -- split; [apply Qlt_le_weak|intros _]; by eapply Hlow.
      * right. exists (S i), a', c', cn'.
        split; [done|]. split; [done|]. split; [done|].
        split; [by eapply Qle_trans|].
        intros [|j] a2 c2 cn2 Hj Hc2; simpl in Hj.
        -- assert (cn2 = cn) as -> by congruence. split; [done|lia].
        -- destruct (Hmax j a2 c2 cn2 Hj Hc2) as [Hle Hlt].
           split; [done|]. intros Hij. apply Hlt. lia.
    + assert (win_ratio cn < best0)%Q as Hlt.
      { apply Qnot_le_lt. intros Hle%Qle_bool_iff. congruence. }
      destruct (IH best0 act0 Hrest)
        as [[-> Hlow]|(i & a' & c' & cn' & Hi & Hc' & -> & Hge & Hmax)].
      * left. split; [done|]. intros [|j] a2 c2 cn2 Hj Hc2; simpl in Hj.
        -- assert (cn2 = cn) as -> by congruence. done.
        -- by eapply Hlow.
      * right. exists (S i), a', c', cn'.
        split; [done|]. split; [done|]. split; [done|]. split; [done|].
        intros [|j] a2 c2 cn2 Hj Hc2; simpl in Hj.
        -- assert (cn2 = cn) as -> by congruence.
           split; [|lia]. apply Qlt_le_weak. by eapply Qlt_le_trans.
        -- destruct (Hmax j a2 c2 cn2 Hj Hc2) as [Hle Hlt'].
           split; [done|]. intros Hij. apply Hlt'. lia.
Qed.

Lemma final_action_spec tree :
  tree_ok tree -> all_visited None tree ->
  ∃ root, tree !! root_node = Some root ∧
    ((child_nodes root = [] ∧ final_action tree = Ok None) ∨
     (∃ i a c cn, child_nodes root !! i = Some (a, c) ∧ tree !! c = Some cn ∧
        parent_action cn = Some a ∧ final_action tree = Ok (Some a) ∧
        ∀ j a' c' cn', child_nodes root !! j = Some (a', c') ->
                       tree !! c' = Some cn' ->
          (win_ratio cn' <= win_ratio cn)%Q ∧
          (i < j -> (win_ratio cn' < win_ratio cn)%Q))).
Proof.
  intros Hok Hvis.
  destruct (ok_root _ Hok) as (root & Hroot & _).
  exists root. split; [done|]. unfold final_action.
  apply lookup_node_Ok in Hroot as Hl. rewrite Hl. simpl.
  destruct (best_action_spec tree (child_nodes root) 0%Q None)
    as [[Hnone Hlow]|(i & a & c & cn & Hi & Hc & Hbest & _ & Hmax)].
  - intros a c Hin.
    destruct (tree_ok_child tree root_node root a c Hok Hroot Hin)
      as (cn & Hc & _ & _ & Hne & _).
    exists cn. split; [done|]. by eapply Hvis.
  - left. split; [|done].
    destruct (child_nodes root) as [|[a c] rest] eqn:Hch; [done|].
    destruct (tree_ok_child tree root_node root a c Hok Hroot) as (cn & Hc & _).
    { rewrite Hch. by left. }
    specialize (Hlow 0 a c cn eq_refl Hc).
    pose proof (win_ratio_nonneg cn) as Hpos.
    exfalso. eapply Qlt_not_le; eauto.
  - right. exists i, a, c, cn.
    destruct (ok_children _ Hok root_node root a c Hroot)
      as (cn' & Hc' & _ & Hpa).
    { eapply list_elem_of_lookup_2; eauto. }
    assert (cn' = cn) as -> by congruence.
    split; [done|]. split; [done|]. split; [done|].
    split; [by rewrite Hbest, Hpa|done].
Qed.


Lemma mcts_loop_searched budget strat board state tree g tree' g' :
  searched strat board state tree ->
  mcts_loop budget strat board state (current_player board state) (tree, g)
    = Ok (tree', g') ->
  searched strat board state tree'.
Proof.
  revert tree g. induction budget as [|budget IH]; intros tree g Hs; simpl.
  - by intros [= <- <-].
  - intros Hloop. apply bind_Ok in Hloop as ([tree1 g1] & Hstep & Hloop).
    eapply IH; [|exact Hloop]. by eapply searched_step.
Qed.

Lemma timed_loop_searched loop_fuel strat board state start elapsed clock
    tree g tree' g' :
  searched strat board state tree ->
  timed_loop loop_fuel strat board state (current_player board state)
             start elapsed clock (tree, g) = Ok (tree', g') ->
  searched strat board state tree'.
Proof.
  revert elapsed clock tree g.
  induction loop_fuel as [|fuel IH]; intros elapsed clock tree g Hs; simpl;
    destruct (PrimFloat.leb elapsed 1); try discriminate;
    try (by intros [= <- <-]).
  intros Hloop. apply bind_Ok in Hloop as ([tree1 g1] & Hstep & Hloop).
  eapply IH; [|exact Hloop]. by eapply searched_step.
Qed.

(** Both drivers return what the final loop finds in a tree of the search. *)
Lemma think_budget_searched budget strat board state g act :
  think_budget budget strat board state g = Ok act ->
  ∃ tree, searched strat board state tree ∧ final_action tree = Ok act.
Proof.
  unfold think_budget. intros Ht.
  apply bind_Ok in Ht as ([tree g'] & Hloop & Hfin).
  exists tree. split; [|done].
  eapply mcts_loop_searched; [constructor|exact Hloop].
Qed.

Lemma think_time_searched loop_fuel fuel clock board state g act :
  think_time loop_fuel fuel clock board state g = Ok act ->
  ∃ tree, searched (vanilla fuel) board state tree ∧ final_action tree = Ok act.
Proof.
  unfold think_time. intros Ht.
  apply bind_Ok in Ht as ([tree g'] & Hloop & Hfin).
  exists tree. split; [|done].
  eapply timed_loop_searched; [constructor|exact Hloop].
Qed.

(** ** The search driver *)

(** The loop of the iteration-budget engine returns, or raises
    RecursionError. *)
Lemma mcts_loop_modified_cases budget fuel board state identity tree g :
  tree_ok tree -> all_visited None tree ->
  (∃ tree' g', mcts_loop budget (modified fuel) board state identity (tree, g)
               = Ok (tree', g')) ∨
  mcts_loop budget (modified fuel) board state identity (tree, g)
  = Raise RecursionError.
Proof.
  revert tree g.
  induction budget as [|budget IH]; intros tree g Hok Hvis; simpl.
  - left. eauto.
  - destruct (mcts_step_modified_cases fuel board state identity tree g Hok Hvis)
      as [(tree1 & g1 & Hstep)| ->]; [|by right].
    rewrite Hstep. simpl.
    destruct (mcts_step_inv _ _ _ _ _ _ _ _ (engine_modified fuel) Hok Hvis Hstep)
      as (Hok1 & Hvis1 & _).
    by apply IH.
Qed.

(** It returns when the frames exceed the size of the store by the budget:
    a pass adds one object at most. *)
Lemma mcts_loop_modified_total budget fuel board state identity tree g :
  tree_ok tree -> all_visited None tree -> length tree + budget ≤ frames ->
  ∃ tree' g',
    mcts_loop budget (modified fuel) board state identity (tree, g)
      = Ok (tree', g').
Proof.
  revert tree g.
  induction budget as [|budget IH]; intros tree g Hok Hvis Hroom; simpl.
  - eauto.
  - destruct (mcts_step_modified_total fuel board state identity tree g Hok Hvis)
      as (tree1 & g1 & Hstep & Hlen); [lia|].
    rewrite Hstep. simpl.
    destruct (mcts_step_inv _ _ _ _ _ _ _ _ (engine_modified fuel) Hok Hvis Hstep)
      as (Hok1 & Hvis1 & _).
    apply IH; [done|done|lia].
Qed.

(** A loop that returns has added its budget to the visits of the root. *)
Lemma mcts_loop_root_visits budget strat board state identity tree g tree' g' r :
  engine strat -> tree_ok tree -> all_visited None tree ->
  tree !! root_node = Some r ->
  mcts_loop budget strat board state identity (tree, g) = Ok (tree', g') ->
  tree_ok tree' ∧ all_visited None tree' ∧
  ∃ r', tree' !! root_node = Some r' ∧ visits r' = visits r + budget.
Proof.
  intros Hstrat. revert tree g r.
  induction budget as [|budget IH]; intros tree g r Hok Hvis Hr; simpl.
  - intros [= <- <-]. split; [done|]. split; [done|]. exists r. split; [done|lia].
  - intros Hloop. apply bind_Ok in Hloop as ([tree1 g1] & Hstep & Hloop).
    destruct (mcts_step_inv _ _ _ _ _ _ _ _ Hstrat Hok Hvis Hstep)
      as (Hok1 & Hvis1 & Hroot).
    destruct (Hroot r Hr) as (r1 & Hr1 & Hv1).
    destruct (IH tree1 g1 r1 Hok1 Hvis1 Hr1 Hloop) as (Hok' & Hvis' & r' & Hr' & Hv').
    split; [done|]. split; [done|]. exists r'. split; [done|lia].
Qed.

(** C4, amended: with a budget of [budget] passes the loop of [think] ends
    in one of two ways.  It returns, and then the root has been visited
    [budget] times: backpropagation, the only code that changes [visits],
    adds one to the root each time the loop calls it, so it was reached in
    each of the [budget] passes and in no other; the final action is chosen
    on the tree so built.  Or a pass raises RecursionError, in selection or
    in backpropagation, which make one call for each level of the tree.
    The loop returns whenever the call stack has more than [budget] frames:
    a pass adds one node at most.  The budget of [think] is
    [num_nodes] = 1000. *)
Theorem think_runs_budget budget fuel board state g :
  num_nodes = 1000 ∧
  think fuel board state g = think_budget num_nodes (modified fuel) board state g ∧
  (∀ tree g',
     mcts_loop budget (modified fuel) board state (current_player board state)
               (initial_tree board state, g) = Ok (tree, g') ->
     ∃ root act,
       tree !! root_node = Some root ∧ visits root = budget ∧
       final_action tree = Ok act ∧
       think_budget budget (modified fuel) board state g = Ok act) ∧
  ((∃ tree g',
      mcts_loop budget (modified fuel) board state (current_player board state)
                (initial_tree board state, g) = Ok (tree, g')) ∨
   (mcts_loop budget (modified fuel) board state (current_player board state)
              (initial_tree board state, g) = Raise RecursionError ∧
    think_budget budget (modified fuel) board state g = Raise RecursionError)) ∧
  (budget < frames ->
   ∃ tree g',
     mcts_loop budget (modified fuel) board state (current_player board state)
               (initial_tree board state, g) = Ok (tree, g')).
Proof.
  split; [done|]. split; [done|].
  destruct (initial_tree_ok board state) as [Hok Hvis].
  split; [|split].
  - intros tree g' Hloop.
    destruct (mcts_loop_root_visits budget (modified fuel) board state
                (current_player board state) (initial_tree board state) g tree g'
                (MCTSNode_new None None (legal_actions board state))
                (engine_modified fuel) Hok Hvis eq_refl Hloop)
      as (Hok' & Hvis' & root & Hroot & Hv).
    assert (∃ act, final_action tree = Ok act) as [act Hact].
    { destruct (final_action_spec tree Hok' Hvis')
        as (_ & _ & [[_ ?]|(_ & a & _ & _ & _ & _ & _ & ? & _)]); eauto. }
    exists root, act. split; [done|]. split; [done|]. split; [done|].
    unfold think_budget. by rewrite Hloop.
  - destruct (mcts_loop_modified_cases budget fuel board state
                (current_player board state) (initial_tree board state) g Hok Hvis)
      as [?|Hraise]; [by left|right].
    split; [done|]. unfold think_budget. by rewrite Hraise.
  - intros Hroom.
    apply mcts_loop_modified_total; [done|done|simpl; lia].
Qed.

(** C9: in the tree of a search, after any number of completed passes,
    every node has [wins <= visits], and no node has more visits than its
    parent, be the parent read from the parent link or the node read from
    the children of the parent. *)
Theorem searched_counters strat board state tree :
  engine strat -> searched strat board state tree ->
  (∀ i n, tree !! i = Some n -> wins n ≤ visits n) ∧
  (∀ i n p, tree !! i = Some n -> parent n = Some p ->
     ∃ pn, tree !! p = Some pn ∧ visits n ≤ visits pn) ∧
  (∀ i n a c, tree !! i = Some n -> (a, c) ∈ child_nodes n ->
     ∃ cn, tree !! c = Some cn ∧ parent cn = Some i ∧ visits cn ≤ visits n).
Proof.
  intros Hstrat Hs. destruct (searched_ok _ _ _ _ Hstrat Hs) as [Hok Hvis].
  split; [apply Hok|]. split.
  - intros i n p Hi Hp.
    destruct (decide (i = root_node)) as [->|Hne].
    + destruct (ok_root _ Hok) as (r & Hr & Hnone). congruence.
    + destruct (ok_parent _ Hok i n Hi Hne) as (p' & pn & Hp' & _ & Hpn & Hv).
      exists pn. split; [congruence|done].
  - intros i n a c Hi Hin.
    destruct (tree_ok_child tree i n a c Hok Hi Hin) as (cn & ? & ? & _ & _ & ?).
    by exists cn.
Qed.

(** C10: in the tree of a search, between two passes, every node but the
    root has been visited at least once, so that every child selection can
    score, and its parent, have [visits >= 1]: the score is defined, and
    selection from the root returns a node without raising an exception.
    A node with untried actions is returned before any score is computed. *)
Theorem uct_scores_defined strat board state tree :
  engine strat -> searched strat board state tree ->
  (∀ i n, tree !! i = Some n -> i ≠ root_node -> 1 ≤ visits n) ∧
  (∀ node n a c, tree !! node = Some n -> (a, c) ∈ child_nodes n ->
     ∃ cn, tree !! c = Some cn ∧ 1 ≤ visits cn ∧ 1 ≤ visits n ∧
       explore (wins cn) (visits cn) (visits n) explore_faction
       = Ok (INR (wins cn) / INR (visits cn)
             + explore_faction * sqrt (ln (INR (visits n)) / INR (visits cn)))%R) ∧
  (∀ node n, tree !! node = Some n ->
     ∃ vs, child_scores tree (visits n) (child_nodes n) = Ok vs) ∧
  (∀ node n fuel identity, tree !! node = Some n -> untried_actions n ≠ [] ->
     traverse_nodes (S fuel) tree node board state identity = Ok node) ∧
  (∀ identity, ∃ leaf,
     traverse_nodes (length tree) tree root_node board state identity = Ok leaf ∧
     leaf < length tree).
Proof.
  intros Hstrat Hs. destruct (searched_ok _ _ _ _ Hstrat Hs) as [Hok Hvis].
  split; [|split; [|split; [|split]]].
  - intros i n Hi Hne. by eapply Hvis.
  - intros node n a c Hn Hin.
    destruct (tree_ok_child tree node n a c Hok Hn Hin) as (cn & Hc & _ & _ & Hne & Hle).
    assert (1 ≤ visits cn) by (by eapply Hvis).
    exists cn. split; [done|]. split; [done|]. split; [lia|].
    apply explore_Ok; lia.
  - intros node n Hn. by eapply child_scores_ok.
  - intros node n fuel identity Hn Hun. apply lookup_node_Ok in Hn.
    simpl. rewrite Hn. simpl. by destruct (untried_actions n).
  - intros identity. apply traverse_nodes_ok; try done.
    + destruct (ok_root _ Hok) as (r & Hr & _). eapply lookup_lt_Some; eauto.
    + lia.
Qed.

(** ** A search from a state without legal action *)

Lemma rollout_vanilla_ended fuel board state g :
  is_ended board state = true ->
  rollout_vanilla fuel board state g = Ok (state, g).
Proof. intros He. destruct fuel; simpl; by rewrite He. Qed.

Lemma barren_step strat board state identity w v g :
  engine strat -> is_ended board state = true ->
  ∃ w', mcts_step strat board state identity
          ([mkNode None None [] [] w v], g)
        = Ok ([mkNode None None [] [] w' (v + 1)], g).
Proof.
  intros Hstrat He. unfold mcts_step.
  pose proof frames_pos as Hpos. destruct frames as [|k]; [lia|]. simpl.
  destruct (Req_dec_T 0 0) as [_|Hne]; [|done]. simpl.
  assert (simulate strat board state g = Ok (state, g)) as ->.
  { destruct Hstrat; simpl; [apply rollout_returns|by apply rollout_vanilla_ended]. }
  simpl. eauto.
Qed.

Lemma barren_loop budget strat board state identity w v g :
  engine strat -> is_ended board state = true ->
  ∃ w', mcts_loop budget strat board state identity
          ([mkNode None None [] [] w v], g)
        = Ok ([mkNode None None [] [] w' (v + budget)], g).
Proof.
  intros Hstrat He. revert w v.
  induction budget as [|budget IH]; intros w v; simpl.
  - exists w. by rewrite Nat.add_0_r.
  - destruct (barren_step strat board state identity w v g Hstrat He) as (w1 & ->).
    simpl. destruct (IH w1 (v + 1)) as (w' & ->). exists w'.
    by replace (v + 1 + budget) with (v + S budget) by lia.
Qed.

Lemma barren_search budget strat board state g :
  engine strat ->
  legal_actions board state = [] -> is_ended board state = true ->
  think_budget budget strat board state g = Ok None.
Proof.
  intros Hstrat Hl He. unfold think_budget, initial_tree, MCTSNode_new.
  rewrite Hl.
  destruct (barren_loop budget strat board state (current_player board state)
              0 0 g Hstrat He) as (w' & ->).
  done.
Qed.

(** C3, amended: on a terminal state (no legal action, and the game
    reports it as ended) [think] signals no error: it returns None.  The same
    holds for the loop of either engine under any budget. *)
Theorem think_terminal_returns_none fuel board state g :
  legal_actions board state = [] -> is_ended board state = true ->
  think fuel board state g = Ok None ∧
  ∀ budget strat, engine strat ->
    think_budget budget strat board state g = Ok None.
Proof.
  intros Hl He. split.
  - apply barren_search; [constructor|done..].
  - intros budget strat Hstrat. by apply barren_search.
Qed.

(** ** Facts about the two copies of expansion and simulation *)

(** The pure random rollout returns only ended states. *)
Lemma rollout_vanilla_terminal fuel board state g state' g' :
  rollout_vanilla fuel board state g = Ok (state', g') ->
  is_ended board state' = true.
Proof.
  revert state g. induction fuel as [|fuel IH]; intros state g; simpl;
    destruct (is_ended board state) eqn:He; simpl; try discriminate;
    try (intros [= <- <-]; done).
  destruct (choice (legal_actions board state) g) as [[a g1]| |]; simpl;
    try discriminate.
  apply IH.
Qed.

(** The expansion of the wall-clock engine leaves an ended state alone. *)
Lemma expand_leaf_vanilla_ended tree node board state g :
  is_ended board state = true ->
  expand_leaf_vanilla tree node board state g = Ok (tree, node, state, g).
Proof. intros He. unfold expand_leaf_vanilla. by rewrite He. Qed.

(** Every activation of [traverse_nodes] receives the state of the first
    one, and the last activation is at the node that is returned. *)
Lemma traverse_calls_state fuel tree node board state identity calls :
  traverse_calls fuel tree node board state identity = Ok calls ->
  Forall (λ call, snd call = state) calls ∧
  ∃ leaf, traverse_nodes fuel tree node board state identity = Ok leaf ∧
          last calls = Some (leaf, state).
Proof.
  revert node calls. induction fuel as [|fuel IH]; intros node calls; simpl;
    [discriminate|].
  destruct (lookup_node tree node) as [n| |]; simpl; try discriminate.
  destruct (untried_actions n).
  - destruct (uct_scan tree (visits n) (child_nodes n) 0 node)
      as [[b m]| |] eqn:Hscan; simpl; try discriminate.
    destruct (Req_dec_T b 0) as [->|Hb].
    + intros [= <-]. split; [by repeat constructor|].
      apply uct_scan_scores in Hscan
        as (vs & _ & [(_ & -> & _)|(i & a & _ & _ & Hpos & _)]); [|lra].
      by exists node.
    + destruct (traverse_calls fuel tree m board state identity)
        as [calls'| |] eqn:Hcalls; simpl; try discriminate.
      intros [= <-]. destruct (IH m calls' Hcalls) as (Hall & leaf & Hleaf & Hlast).
      split; [by constructor|]. exists leaf. split; [done|].
      destruct calls' as [|call calls']; [done|]. by rewrite last_cons_cons.
  - intros [= <-]. split; [by repeat constructor|]. by exists node.
Qed.

(** C6, amended: the driver invokes expansion only on a leaf that has an
    untried action.  On a leaf without one the pass does not depend on the
    expansion function, so a choice from an empty set of untried actions is
    not reachable in a run; on a leaf with one the choice succeeds and the
    expansion of either engine returns.  The expansion of the wall-clock
    engine tests the state it is handed before any choice: if the game
    reports it ended, the node and the state come back unchanged, whatever
    the untried actions.  The expansion of the iteration-budget engine has
    no such test: it adds a child whenever there is an untried action. *)
Theorem expansion_guarded strat board state identity tree g leaf ln :
  engine strat -> tree !! leaf = Some ln ->
  (traverse_nodes frames tree root_node board state identity = Ok leaf ->
   untried_actions ln = [] ->
   ∀ expansion,
     mcts_step {| expand := expansion; simulate := simulate strat |}
               board state identity (tree, g)
     = mcts_step strat board state identity (tree, g)) ∧
  (untried_actions ln ≠ [] ->
   ∃ tree1 node state1 g1,
     expand strat tree leaf board state g = Ok (tree1, node, state1, g1)) ∧
  (is_ended board state = true ->
   expand_leaf_vanilla tree leaf board state g = Ok (tree, leaf, state, g)) ∧
  (untried_actions ln ≠ [] ->
   ∃ action tree1,
     action ∈ untried_actions ln ∧ length tree1 = S (length tree) ∧
     expand_leaf tree leaf board state g
     = Ok (tree1, length tree, next_state board state action, rng_next g)).
Proof.
  intros Hstrat Hl.
  assert (Hexp : untried_actions ln ≠ [] ->
    ∃ action tree1,
      action ∈ untried_actions ln ∧ length tree1 = S (length tree) ∧
      expand_leaf tree leaf board state g
      = Ok (tree1, length tree, next_state board state action, rng_next g)).
  { intros Hun. unfold expand_leaf.
    rewrite (proj2 (lookup_node_Ok tree leaf ln) Hl). simpl.
    destruct (choice_Ok (untried_actions ln) g Hun) as (action & -> & Hin).
    simpl. eexists action, _. split; [done|]. split; [|done].
    rewrite length_insert, length_app. simpl. lia. }
  split; [|split; [|split; [|done]]].
  - intros Htrav Hun expansion. unfold mcts_step. rewrite Htrav. simpl.
    rewrite (proj2 (lookup_node_Ok tree leaf ln) Hl). simpl. by rewrite Hun.
  - intros Hun. destruct (Hexp Hun) as (action & tree1 & _ & _ & Hrun).
    destruct Hstrat as [fuel|fuel]; simpl; [eauto|].
    unfold expand_leaf_vanilla. destruct (is_ended board state); simpl; eauto.
  - apply expand_leaf_vanilla_ended.
Qed.

End Proofs.

(** * A search whose tree is a single branch

    When the state of the root and the state after its first action both
    have the single legal action 1, every new node gets that untried
    action, every pass is a win, and the tree grows by one level per
    pass. *)

Section Branch.

Context {State Cell : Type} {stack : CallStack}.

Implicit Types (tree : list (MCTSNode nat)) (board : Board State nat Cell).
Implicit Types (state : State) (g : Rng).

Lemma branch_backpropagate_raises fuel tree j won :
  branch_links tree -> j < length tree -> fuel ≤ j ->
  backpropagate fuel tree j won = Raise RecursionError.
Proof.
  revert tree j.
  induction fuel as [|fuel IH]; intros tree j Hl Hlen Hf; [done|].
  destruct (lookup_node_lt tree j Hlen) as (n & Hn & Hln).
  simpl. rewrite Hln. simpl. rewrite (Hl j n Hn).
  destruct j as [|i]; [lia|].
  apply IH; [|rewrite length_insert; lia|lia].
  intros j' n' Hj'. destruct (decide (j' = S i)) as [->|Hne].
  - rewrite list_lookup_insert_eq in Hj' by done. injection Hj' as <-.
    simpl. by apply (Hl (S i)).
  - rewrite list_lookup_insert_ne in Hj' by done. by apply Hl.
Qed.

Lemma branch_backpropagate fuel tree j won :
  branch_links tree -> j < length tree -> j < fuel ->
  ∃ tree', backpropagate fuel tree j won = Ok tree' ∧
    length tree' = length tree ∧
    ∀ i, tree' !! i = if decide (i ≤ j) then credit won <$> tree !! i
                      else tree !! i.
Proof.
  revert tree j.
  induction fuel as [|fuel IH]; intros tree j Hl Hlen Hf; [lia|].
  destruct (lookup_node_lt tree j Hlen) as (n & Hn & Hln).
  simpl. rewrite Hln. simpl. rewrite (Hl j n Hn).
  assert (Hins : ∀ i, i ≠ j -> <[j := credit won n]> tree !! i = tree !! i)
    by (intros; by apply list_lookup_insert_ne).
  assert (Hj : <[j := credit won n]> tree !! j = Some (credit won n))
    by (by apply list_lookup_insert_eq).
  destruct j as [|j'].
  - eexists. split; [done|]. split; [by rewrite length_insert|].
    intros i. destruct (decide (i ≤ 0)) as [Hi|Hi].
    + assert (i = 0) as -> by lia. by rewrite Hj, Hn.
    + apply Hins. lia.
  - destruct (IH (<[S j' := credit won n]> tree) j') as (tree' & -> & Hlen' & Hlk).
    + intros i n' Hi. destruct (decide (i = S j')) as [->|Hne].
      * rewrite Hj in Hi. injection Hi as <-. simpl. by apply (Hl (S j')).
      * rewrite Hins in Hi by done. by apply Hl.
    + rewrite length_insert. lia.
    + lia.
    + exists tree'. split; [done|]. split; [by rewrite Hlen', length_insert|].
      intros i. rewrite Hlk.
      destruct (decide (i ≤ j')) as [Hi|Hi].
      * rewrite decide_True by lia. rewrite Hins by lia. done.
      * destruct (decide (i = S j')) as [->|Hne].
        -- rewrite decide_True by lia. by rewrite Hj, Hn.
        -- rewrite decide_False by lia. apply Hins. done.
Qed.

Lemma branch_score (w t : nat) :
  1 ≤ w -> 1 ≤ t ->
  ∃ v, explore w w t explore_faction = Ok v ∧ (0 < v)%R.
Proof.
  intros Hw Ht. eexists. split; [by apply explore_Ok|].
  assert (0 < INR w)%R as Hpos by (apply lt_0_INR; lia).
  replace (INR w / INR w)%R with 1%R by (field; lra).
  pose proof (sqrt_pos (ln (INR t) / INR w)). unfold explore_faction. lra.
Qed.

(** Selection runs down the whole branch, when it has the frames. *)
Lemma branch_traverse board state identity k tree fuel j :
  branch k tree -> j ≤ k -> k - j < fuel ->
  traverse_nodes fuel tree j board state identity = Ok k.
Proof.
  intros [Hlen Hb]. revert j.
  induction fuel as [|fuel IH]; intros j Hj Hf; [lia|].
  destruct (Hb j Hj) as (n & Hn & Hp & Hch & Hun & Hw & Hv).
  destruct (decide (j < k)) as [Hlt|Hge].
  - destruct (Hb (S j) ltac:(lia)) as (cn & Hcn & _ & _ & _ & Hwc & Hvc).
    destruct (branch_score (visits cn) (visits n)) as (v & Hv' & Hpos);
      [apply Hvc; lia|apply Hv; lia|].
    assert (uct_scan tree (visits n) (child_nodes n) 0 j = Ok (v, S j))
      as Hscan.
    { rewrite Hch. simpl. apply lookup_node_Ok in Hcn. rewrite Hcn. simpl.
      rewrite Hwc, Hv'. simpl. destruct (Rgt_dec v 0); [done|lra]. }
    rewrite (traverse_nodes_scan fuel tree j n v (S j) board state identity
               Hn Hun Hscan).
    destruct (Req_dec_T v 0); [lra|]. apply IH; lia.
  - assert (j = k) as -> by lia. simpl.
    apply lookup_node_Ok in Hn. rewrite Hn. simpl. by rewrite Hun.
Qed.

Lemma branch_initial board state :
  single_file board state -> branch 0 (initial_tree board state).
Proof.
  intros (Hroot & _). unfold initial_tree. rewrite Hroot.
  split; [done|]. intros j Hj. assert (j = 0) as -> by lia.
  eexists. split; [done|]. simpl.
  split; [done|]. split; [done|]. split; [done|]. split; [done|]. lia.
Qed.

(** One pass on a branch of [k] levels: it adds a level when the call stack
    has more than [k + 1] frames, and with [k + 1] frames backpropagation
    raises RecursionError. *)
Lemma branch_step fuel board state g k tree :
  single_file board state -> branch k tree ->
  (S k < frames ->
   ∃ tree', mcts_step (modified fuel) board state (current_player board state)
                      (tree, g) = Ok (tree', rng_next g) ∧
            branch (S k) tree') ∧
  (S k = frames ->
   mcts_step (modified fuel) board state (current_player board state) (tree, g)
   = Raise RecursionError).
Proof.
  intros (Hroot & Hnext & Hturn) Hbr. pose proof Hbr as [Hlen Hb].
  destruct (Hb k (le_n k)) as (nk & Hnk & Hpk & Hchk & Hunk & Hwk & Hvk).
  rewrite decide_False in Hchk by lia. rewrite decide_False in Hunk by lia.
  remember (MCTSNode_new (Some k) (Some 1) [1]) as new eqn:Hnew.
  remember (<[k := add_child 1 (S k) nk]> (tree ++ [new])) as tree1 eqn:Htree1.
  assert (expand_leaf tree k board state g
          = Ok (tree1, S k, next_state board state 1, rng_next g)) as Hexp.
  { assert (choice [1] g = Ok (1, rng_next g)) as Hc.
    { unfold choice. change (length [1]) with 1. by rewrite Nat.mod_1_r. }
    unfold expand_leaf. rewrite (proj2 (lookup_node_Ok tree k nk) Hnk). simpl.
    rewrite Hunk, Hc. simpl.
    by rewrite Hnext, Hlen, Htree1, Hnew. }
  assert (k < frames ->
          mcts_step (modified fuel) board state (current_player board state)
                    (tree, g)
          = (tree2 ← backpropagate frames tree1 (S k) true;
             Ok (tree2, rng_next g))) as Hstep.
  { intros Hk. unfold mcts_step.
    rewrite (branch_traverse board state _ k tree frames root_node Hbr)
      by (unfold root_node; lia).
    simpl. rewrite (proj2 (lookup_node_Ok tree k nk) Hnk). simpl.
    rewrite Hunk, Hexp. simpl. rewrite rollout_returns. simpl.
    by rewrite bool_decide_true. }
  assert (length tree1 = S (S k)) as Hlen1.
  { rewrite Htree1, length_insert, length_app, Hlen. simpl. lia. }
  assert (Hold : ∀ j n, j ≤ k -> tree !! j = Some n ->
            tree1 !! j = Some (if decide (j = k)
                               then add_child 1 (S k) nk else n)).
  { intros j n Hj Hjn. rewrite Htree1. by eapply expand_store_old. }
  assert (tree1 !! S k = Some new) as Hlast.
  { rewrite Htree1, <- Hlen. by eapply expand_store_new. }
  assert (branch_links tree1) as Hlinks.
  { intros j n Hj. destruct (decide (j ≤ k)) as [Hle|Hgt].
    - destruct (Hb j Hle) as (nj & Hnj & Hpj & _).
      rewrite (Hold j nj Hle Hnj) in Hj. injection Hj as <-.
      destruct (decide (j = k)) as [->|_]; [simpl; congruence|done].
    - apply lookup_lt_Some in Hj as Hlt. assert (j = S k) as -> by lia.
      rewrite Hlast in Hj. injection Hj as <-. by rewrite Hnew. }
  split.
  - intros Hroom. rewrite Hstep by lia.
    destruct (branch_backpropagate frames tree1 (S k) true Hlinks)
      as (tree' & -> & Hlen' & Hlk); [lia|lia|].
    simpl. exists tree'. split; [done|]. split; [lia|].
    intros j Hj. rewrite Hlk, decide_True by lia.
    destruct (decide (j ≤ k)) as [Hle|Hgt].
    + destruct (Hb j Hle) as (nj & Hnj & Hpj & Hchj & Hunj & Hwj & Hvj).
      rewrite (Hold j nj Hle Hnj). simpl. eexists. split; [done|].
      destruct (decide (j < S k)) as [_|?]; [|lia].
      destruct (decide (j = k)) as [->|Hne]; simpl.
      * rewrite Hchk, Hunk. simpl.
        split; [done|]. split; [done|]. split; [done|]. lia.
      * rewrite decide_True in Hchj by lia. rewrite decide_True in Hunj by lia.
        split; [done|]. split; [done|]. split; [done|]. lia.
    + assert (j = S k) as -> by lia. rewrite Hlast, Hnew. simpl.
      eexists. split; [done|]. simpl.
      destruct (decide (S k < S k)) as [?|_]; [lia|].
      split; [done|]. split; [done|]. split; [done|]. lia.
  - intros Hroom. rewrite Hstep by lia.
    rewrite branch_backpropagate_raises; [done|done|lia|lia].
Qed.

Lemma branch_loop budget fuel board state g k tree :
  single_file board state -> branch k tree ->
  S k ≤ frames -> frames ≤ k + budget ->
  mcts_loop budget (modified fuel) board state (current_player board state)
            (tree, g) = Raise RecursionError.
Proof.
  intros Hgame. revert g k tree.
  induction budget as [|budget IH]; intros g k tree Hbr Hlow Hhigh; [lia|].
  simpl. destruct (branch_step fuel board state g k tree Hgame Hbr)
    as [Hgrow Hraise].
  destruct (decide (S k = frames)) as [Heq|Hne].
  - by rewrite (Hraise Heq).
  - destruct Hgrow as (tree' & -> & Hbr'); [lia|]. simpl.
    apply (IH _ (S k)); [done|lia|lia].
Qed.

(** A search of the iteration-budget engine over such a game raises
    RecursionError as soon as its budget reaches the frames of the call
    stack. *)
Lemma branch_search_raises budget fuel board state g :
  single_file board state -> frames ≤ budget ->
  think_budget budget (modified fuel) board state g = Raise RecursionError.
Proof.
  intros Hgame Hb. unfold think_budget.
  rewrite (branch_loop budget fuel board state g 0 (initial_tree board state));
    [done|done|by apply branch_initial|apply frames_pos|lia].
Qed.

End Branch.


(** * The engine on the game of Nim *)

Import Nim.

#[local] Existing Instance script_stack.

Lemma one_token_search :
  mcts_step (modified 0) board (1, 1) 1 (initial_tree board (1, 1), first_choice)
  = Ok (one_token_tree, first_choice).
Proof. vm_compute. reflexivity. Qed.

Lemma two_token_search :
  searched (modified 0) board (2, 1) two_token_tree.
Proof.
  eapply (searched_step _ _ _ _ first_choice _ first_choice).
  - eapply (searched_step _ _ _ _ first_choice _ first_choice).
    + apply searched_root.
    + vm_compute. reflexivity.
  - vm_compute. reflexivity.
Qed.

Lemma first_visit_score :
  (1 / 1 + explore_faction * sqrt (ln 1 / 1))%R = 1%R.
Proof. rewrite ln_1. unfold Rdiv. rewrite Rmult_0_l, sqrt_0. lra. Qed.

(** C1: the first pass of a search over two tokens hands the state (1, 2)
    to the simulation.  The heuristic sampled rollout returns this state as
    it is, and the game does not report it as ended; the pure random
    rollout plays it to the end. *)
Theorem rollout_keeps_unfinished_state fuel :
  (∃ tree g, expand_leaf (initial_tree board (2, 1)) root_node board (2, 1)
                         first_choice = Ok (tree, 1, (1, 2), g)) ∧
  rollout fuel board (1, 2) first_choice = Ok ((1, 2), first_choice) ∧
  is_ended board (1, 2) = false ∧
  rollout_vanilla 1 board (1, 2) first_choice = Ok ((0, 1), first_choice) ∧
  is_ended board (0, 1) = true.
Proof.
  split; [by eexists _, _|]. split; [apply rollout_returns|]. done.
Qed.

(** The third pass of a search over two tokens: selection descends into
    the child reached by action 1, and expansion then applies the untried
    action 1 of that child to the state (2, 1) of the root.  The new node,
    whose position after the actions 1 and 1 is the ended state (0, 1) with
    the searching player to move, gets the untried action 1 and a win. *)
Lemma two_token_third_pass :
  mcts_step (modified 0) board (2, 1) 1 (two_token_tree, first_choice)
  = Ok ([ mkNode None None [(1, 1); (2, 2)] [] 3 3;
          mkNode (Some 0) (Some 1) [(1, 3)] [] 2 2;
          mkNode (Some 0) (Some 2) [] [] 1 1;
          mkNode (Some 1) (Some 1) [] [1] 1 1 ], first_choice) ∧
  legal_actions board (next_state board (next_state board (2, 1) 1) 1) = [] ∧
  current_player board (next_state board (next_state board (2, 1) 1) 1) = 1.
Proof.
  split; [|done].
  assert (∃ v, uct_scan two_token_tree 2 [(1, 1); (2, 2)] 0 0 = Ok (v, 1) ∧
               (0 < v)%R) as (v & Hscan & Hv).
  { unfold uct_scan, lookup_node. simpl.
    set (v := (1 / 1 + explore_faction * sqrt (ln (1 + 1) / 1))%R).
    assert (0 < v)%R.
    { pose proof (sqrt_pos (ln (1 + 1) / 1)). unfold v, explore_faction. lra. }
    exists v. destruct (Rgt_dec v 0); [|lra]. destruct (Rgt_dec v v); [lra|done]. }
  assert (traverse_nodes frames two_token_tree 0 board (2, 1) 1 = Ok 1) as Htrav.
  { change frames with (S 997).
    rewrite (traverse_nodes_scan 997 two_token_tree 0 _ _ _ board (2, 1) 1
               eq_refl eq_refl Hscan).
    destruct (Req_dec_T v 0); [lra|done]. }
  unfold mcts_step, root_node.
  rewrite Htrav. vm_compute. reflexivity.
Qed.

(** C2: the first pass of a search over one token builds a root with the
    single child reached by action 1.  In the second pass selection
    descends from the root into this child, and the activation at the child
    receives the state (1, 1) of the root, not the state (0, 2) that action
    1 leads to. *)
Theorem traverse_nodes_keeps_root_state :
  mcts_step (modified 0) board (1, 1) 1 (initial_tree board (1, 1), first_choice)
  = Ok (one_token_tree, first_choice) ∧
  (∃ root child, one_token_tree !! 0 = Some root ∧
     child_nodes root = [(1, 1)] ∧ one_token_tree !! 1 = Some child ∧
     parent_action child = Some 1) ∧
  traverse_calls (length one_token_tree) one_token_tree root_node board (1, 1) 1
  = Ok [(0, (1, 1)); (1, (1, 1))] ∧
  traverse_nodes (length one_token_tree) one_token_tree root_node board (1, 1) 1
  = Ok 1 ∧
  next_state board (1, 1) 1 = (0, 2).
Proof.
  split; [exact one_token_search|].
  split; [by eexists _, _|].
  assert (Hscan : uct_scan one_token_tree 1 [(1, 1)] 0 0 = Ok (1%R, 1)).
  { unfold uct_scan, lookup_node. simpl. rewrite first_visit_score.
    destruct (Rgt_dec 1 0); [done|lra]. }
  pose proof (traverse_nodes_scan 1 one_token_tree 0 _ _ _ board (1, 1) 1
                eq_refl eq_refl Hscan) as Hnode.
  pose proof (traverse_calls_scan 1 one_token_tree 0 _ _ _ board (1, 1) 1
                eq_refl eq_refl Hscan) as Hcalls.
  pose proof (traverse_nodes_scan 0 one_token_tree 1 _ 0%R 1 board (1, 1) 1
                eq_refl eq_refl eq_refl) as Hnode'.
  pose proof (traverse_calls_scan 0 one_token_tree 1 _ 0%R 1 board (1, 1) 1
                eq_refl eq_refl eq_refl) as Hcalls'.
  revert Hnode Hcalls Hnode' Hcalls'.
  destruct (Req_dec_T 1 0) as [|_]; [lra|].
  destruct (Req_dec_T 0 0) as [_|]; [|lra].
  intros Hnode Hcalls Hnode' Hcalls'.
  change (length one_token_tree) with 2. unfold root_node.
  split; [|split; [|done]].
  - by rewrite Hcalls, Hcalls'.
  - by rewrite Hnode, Hnode'.
Qed.

(** C3 as stated fails: on the ended state (0, 1), which has no legal
    action, [think] returns None and raises nothing. *)
Lemma think_terminal_no_error :
  legal_actions board (0, 1) = [] ∧
  think 0 board (0, 1) first_choice = Ok None ∧
  ∀ e, think 0 board (0, 1) first_choice ≠ Raise e.
Proof.
  assert (think 0 board (0, 1) first_choice = Ok None) as Ht.
  { apply barren_search; [constructor|done..]. }
  split; [done|]. split; [done|]. intros e. by rewrite Ht.
Qed.

Lemma think_terminal_returns_none_witness :
  legal_actions board (0, 1) = [] ∧ is_ended board (0, 1) = true ∧
  think 7 board (0, 1) first_choice = Ok None.
Proof.
  split; [reflexivity|]. split; [reflexivity|].
  exact (proj1 (think_terminal_returns_none 7 board (0, 1) first_choice
                  eq_refl eq_refl)).
Defined.

(** The two copies of expansion called on their own, outside a run of
    [think].  The expansion of the iteration-budget engine has no test for
    the end of the game: on the root of a search from the ended state
    (0, 1), which has no untried action, it chooses from the empty list and
    raises IndexError; on a node with an untried action and the ended state
    (0, 2) it adds a child.  The expansion of the wall-clock engine returns
    the node and the state unchanged in both cases. *)
Lemma expand_leaf_ignores_end :
  is_ended board (0, 1) = true ∧
  untried_actions (MCTSNode_new None None (legal_actions board (0, 1))) = [] ∧
  expand_leaf (initial_tree board (0, 1)) root_node board (0, 1) first_choice
  = Raise IndexError ∧
  expand_leaf_vanilla (initial_tree board (0, 1)) root_node board (0, 1)
                      first_choice
  = Ok (initial_tree board (0, 1), root_node, (0, 1), first_choice) ∧
  is_ended board (0, 2) = true ∧
  expand_leaf (initial_tree board (1, 1)) root_node board (0, 2) first_choice
  = Ok ([mkNode None None [(1, 1)] [] 0 0; mkNode (Some 0) (Some 1) [] [] 0 0],
        1, (0, 1), first_choice) ∧
  expand_leaf_vanilla (initial_tree board (1, 1)) root_node board (0, 2)
                      first_choice
  = Ok (initial_tree board (1, 1), root_node, (0, 2), first_choice).
Proof. repeat split. Qed.

(** C6 as stated fails: in its third pass, a search by player 1 over the
    counter at 2 selects node 2, which the actions 1 and 1 lead to.  The
    position of this node is the counter at 0: the game reports it ended and
    it has no legal action.  Expansion is invoked on the node, with the
    state of the root, and it is no no-op: it adds node 3 and returns the
    state after action 1, in the expansion of either engine. *)
Lemma expansion_of_ended_position :
  mcts_loop 2 (modified 0) TakeOne.board 2 1
            (initial_tree TakeOne.board 2, first_choice)
  = Ok (TakeOne.two_pass_tree, first_choice) ∧
  traverse_nodes (@frames script_stack) TakeOne.two_pass_tree root_node
                 TakeOne.board 2 1 = Ok 2 ∧
  TakeOne.two_pass_tree !! 1 = Some (mkNode (Some 0) (Some 1) [(1, 2)] [] 2 2) ∧
  TakeOne.two_pass_tree !! 2 = Some (mkNode (Some 1) (Some 1) [] [1] 1 1) ∧
  play TakeOne.board 2 [1; 1] = 0 ∧
  is_ended TakeOne.board 0 = true ∧ legal_actions TakeOne.board 0 = [] ∧
  expand_leaf TakeOne.two_pass_tree 2 TakeOne.board 2 first_choice
  = Ok (TakeOne.expanded_tree, 3, 1, first_choice) ∧
  expand_leaf_vanilla TakeOne.two_pass_tree 2 TakeOne.board 2 first_choice
  = Ok (TakeOne.expanded_tree, 3, 1, first_choice) ∧
  mcts_step (modified 0) TakeOne.board 2 1
            (TakeOne.two_pass_tree, first_choice)
  = Ok (TakeOne.three_pass_tree, first_choice).
Proof.
  assert (branch 1 TakeOne.one_pass_tree) as Hb1.
  { split; [done|]. intros [|[|j]] Hj; [| |lia];
      (eexists; split; [done|]); simpl; repeat split; try done; lia. }
  assert (branch 2 TakeOne.two_pass_tree) as Hb2.
  { split; [done|]. intros [|[|[|j]]] Hj; [| | |lia];
      (eexists; split; [done|]); simpl; repeat split; try done; lia. }
  assert (traverse_nodes frames TakeOne.one_pass_tree root_node TakeOne.board 2 1
          = Ok 1) as Htrav1.
  { apply branch_traverse; [done|unfold root_node; lia|simpl; lia]. }
  assert (traverse_nodes frames TakeOne.two_pass_tree root_node TakeOne.board 2 1
          = Ok 2) as Htrav2.
  { apply branch_traverse; [done|unfold root_node; lia|simpl; lia]. }
  assert (mcts_step (modified 0) TakeOne.board 2 1
            (initial_tree TakeOne.board 2, first_choice)
          = Ok (TakeOne.one_pass_tree, first_choice)) as Hpass1
    by (vm_compute; reflexivity).
  assert (mcts_step (modified 0) TakeOne.board 2 1
            (TakeOne.one_pass_tree, first_choice)
          = Ok (TakeOne.two_pass_tree, first_choice)) as Hpass2.
  { unfold mcts_step. rewrite Htrav1. vm_compute. reflexivity. }
  assert (∀ st st1 st2,
    mcts_step (modified 0) TakeOne.board 2 1 st = Ok st1 ->
    mcts_step (modified 0) TakeOne.board 2 1 st1 = Ok st2 ->
    mcts_loop 2 (modified 0) TakeOne.board 2 1 st = Ok st2) as Htwo.
  { intros st st1 st2 H1 H2. simpl. rewrite H1. simpl. by rewrite H2. }
  split; [exact (Htwo _ _ _ Hpass1 Hpass2)|].
  split; [exact Htrav2|].
  do 7 (split; [reflexivity|]).
  unfold mcts_step. rewrite Htrav2. vm_compute. reflexivity.
Qed.

(** The wall-clock engine does the same in its fourth pass over the
    counter at 2: selection returns node 2, whose position is the counter
    at 0, and expansion, handed the state of the root, which is not ended,
    adds node 3. *)
Lemma expansion_of_ended_position_vanilla :
  mcts_loop 3 (vanilla 3) TakeOne.board 2 1
            (initial_tree TakeOne.board 2, first_choice)
  = Ok (TakeOne.lost_tree_3, first_choice) ∧
  traverse_nodes (@frames script_stack) TakeOne.lost_tree_3 root_node
                 TakeOne.board 2 1 = Ok 2 ∧
  TakeOne.lost_tree_3 !! 2 = Some (mkNode (Some 1) (Some 1) [] [1] 0 1) ∧
  play TakeOne.board 2 [1; 1] = 0 ∧ is_ended TakeOne.board 0 = true ∧
  is_ended TakeOne.board 2 = false ∧
  mcts_step (vanilla 3) TakeOne.board 2 1 (TakeOne.lost_tree_3, first_choice)
  = Ok (TakeOne.lost_tree_4, first_choice).
Proof.
  assert (0 < ln (1 + 1))%R as Hln2
    by (rewrite <- ln_1; apply ln_increasing; lra).
  assert (0 < ln (1 + 1 + 1))%R as Hln3
    by (rewrite <- ln_1; apply ln_increasing; lra).
  assert (uct_scan TakeOne.lost_tree_1 1 [(1, 1)] 0 0 = Ok (0%R, 0)) as Hs1.
  { unfold uct_scan, lookup_node. simpl.
    replace (0 / 1 + explore_faction * sqrt (ln 1 / 1))%R with 0%R.
    - destruct (Rgt_dec 0 0); [lra|done].
    - rewrite ln_1. unfold Rdiv. rewrite !Rmult_0_l, sqrt_0. lra. }
  assert (∃ v, uct_scan TakeOne.lost_tree_2 2 [(1, 1)] 0 0 = Ok (v, 1) ∧
               (0 < v)%R) as (v2 & Hs2 & Hv2).
  { unfold uct_scan, lookup_node. simpl.
    set (v := (0 / 1 + explore_faction * sqrt (ln (1 + 1) / 1))%R).
    assert (0 < v)%R.
    { assert (0 < sqrt (ln (1 + 1) / 1))%R by (apply sqrt_lt_R0; lra).
      unfold v, explore_faction. lra. }
    exists v. destruct (Rgt_dec v 0); [done|lra]. }
  assert (∃ v, uct_scan TakeOne.lost_tree_3 3 [(1, 1)] 0 0 = Ok (v, 1) ∧
               (0 < v)%R) as (v3 & Hs3 & Hv3).
  { unfold uct_scan, lookup_node. simpl.
    set (v := (0 / (1 + 1) + explore_faction
                             * sqrt (ln (1 + 1 + 1) / (1 + 1)))%R).
    assert (0 < v)%R.
    { assert (0 < sqrt (ln (1 + 1 + 1) / (1 + 1)))%R
        by (apply sqrt_lt_R0, Rdiv_lt_0_compat; lra).
      unfold v, explore_faction. lra. }
    exists v. destruct (Rgt_dec v 0); [done|lra]. }
  assert (∃ v, uct_scan TakeOne.lost_tree_3 2 [(1, 2)] 0 1 = Ok (v, 2) ∧
               (0 < v)%R) as (v4 & Hs4 & Hv4).
  { unfold uct_scan, lookup_node. simpl.
    set (v := (0 / 1 + explore_faction * sqrt (ln (1 + 1) / 1))%R).
    assert (0 < v)%R.
    { assert (0 < sqrt (ln (1 + 1) / 1))%R by (apply sqrt_lt_R0; lra).
      unfold v, explore_faction. lra. }
    exists v. destruct (Rgt_dec v 0); [done|lra]. }
  assert (traverse_nodes frames TakeOne.lost_tree_1 0 TakeOne.board 2 1
          = Ok 0) as Htrav1.
  { change frames with (S 997).
    rewrite (traverse_nodes_scan 997 TakeOne.lost_tree_1 0 _ _ _
               TakeOne.board 2 1 eq_refl eq_refl Hs1).
    destruct (Req_dec_T 0 0); [done|lra]. }
  assert (traverse_nodes frames TakeOne.lost_tree_2 0 TakeOne.board 2 1
          = Ok 1) as Htrav2.
  { change frames with (S (S 996)).
    rewrite (traverse_nodes_scan (S 996) TakeOne.lost_tree_2 0 _ _ _
               TakeOne.board 2 1 eq_refl eq_refl Hs2).
    destruct (Req_dec_T v2 0); [lra|done]. }
  assert (traverse_nodes frames TakeOne.lost_tree_3 0 TakeOne.board 2 1
          = Ok 2) as Htrav3.
  { change frames with (S (S (S 995))).
    rewrite (traverse_nodes_scan (S (S 995)) TakeOne.lost_tree_3 0 _ _ _
               TakeOne.board 2 1 eq_refl eq_refl Hs3).
    destruct (Req_dec_T v3 0); [lra|].
    rewrite (traverse_nodes_scan (S 995) TakeOne.lost_tree_3 1 _ _ _
               TakeOne.board 2 1 eq_refl eq_refl Hs4).
    destruct (Req_dec_T v4 0); [lra|done]. }
  assert (mcts_step (vanilla 3) TakeOne.board 2 1
            (initial_tree TakeOne.board 2, first_choice)
          = Ok (TakeOne.lost_tree_1, first_choice)) as Hpass1
    by (vm_compute; reflexivity).
  assert (mcts_step (vanilla 3) TakeOne.board 2 1
            (TakeOne.lost_tree_1, first_choice)
          = Ok (TakeOne.lost_tree_2, first_choice)) as Hpass2.
  { unfold mcts_step, root_node. rewrite Htrav1. vm_compute. reflexivity. }
  assert (mcts_step (vanilla 3) TakeOne.board 2 1
            (TakeOne.lost_tree_2, first_choice)
          = Ok (TakeOne.lost_tree_3, first_choice)) as Hpass3.
  { unfold mcts_step, root_node. rewrite Htrav2. vm_compute. reflexivity. }
  assert (∀ st st1 st2 st3,
    mcts_step (vanilla 3) TakeOne.board 2 1 st = Ok st1 ->
    mcts_step (vanilla 3) TakeOne.board 2 1 st1 = Ok st2 ->
    mcts_step (vanilla 3) TakeOne.board 2 1 st2 = Ok st3 ->
    mcts_loop 3 (vanilla 3) TakeOne.board 2 1 st = Ok st3) as Hthree.
  { intros st st1 st2 st3 H1 H2 H3. simpl. rewrite H1. simpl. rewrite H2.
    simpl. by rewrite H3. }
  split; [exact (Hthree _ _ _ _ Hpass1 Hpass2 Hpass3)|].
  split; [exact Htrav3|].
  do 4 (split; [reflexivity|]).
  unfold mcts_step, root_node. rewrite Htrav3. vm_compute. reflexivity.
Qed.

Lemma expansion_guarded_witness :
  engine (State := state) (Action := nat) (Cell := unit) (vanilla 3) ∧
  initial_tree board (2, 1) !! 0 = Some (MCTSNode_new None None [1; 2]) ∧
  (∃ tree1 node state1 g1,
     expand (vanilla 3) (initial_tree board (2, 1)) 0 board (2, 1) first_choice
     = Ok (tree1, node, state1, g1)) ∧
  is_ended board (0, 2) = true ∧
  expand_leaf_vanilla (initial_tree board (2, 1)) 0 board (0, 2) first_choice
  = Ok (initial_tree board (2, 1), 0, (0, 2), first_choice).
Proof.
  split; [constructor|]. split; [reflexivity|].
  split; [|split; [reflexivity|]].
  - apply (proj1 (proj2 (expansion_guarded (vanilla 3) board (2, 1) 1
                           (initial_tree board (2, 1)) first_choice 0 _
                           (engine_vanilla 3) eq_refl))).
    discriminate.
  - apply (proj1 (proj2 (proj2 (expansion_guarded (vanilla 3) board (0, 2) 1
                           (initial_tree board (2, 1)) first_choice 0 _
                           (engine_vanilla 3) eq_refl)))).
    reflexivity.
Defined.

(** C4 as stated fails: the counter at 2 has the single action 1, and so
    has the state after it.  Called at the top level of a script, under the
    default recursion limit, [think] completes 997 of its 1000 passes; the
    next pass raises RecursionError, and [think] with it. *)
Lemma think_recursion_error :
  single_file Countdown.board 2 ∧
  num_nodes = 1000 ∧ @frames script_stack = 998 ∧
  (∃ tree g,
     mcts_loop (stack := script_stack) 997 (modified 0) Countdown.board 2
               (current_player Countdown.board 2)
               (initial_tree Countdown.board 2, first_choice) = Ok (tree, g)) ∧
  mcts_loop (stack := script_stack) 998 (modified 0) Countdown.board 2
            (current_player Countdown.board 2)
            (initial_tree Countdown.board 2, first_choice)
  = Raise RecursionError ∧
  think (stack := script_stack) 0 Countdown.board 2 first_choice
  = Raise RecursionError ∧
  ∀ act, think (stack := script_stack) 0 Countdown.board 2 first_choice
         ≠ Ok act.
Proof.
  assert (single_file Countdown.board 2) as Hgame.
  { split; [done|]. split; [done|]. simpl. lia. }
  split; [exact Hgame|]. split; [reflexivity|]. split; [reflexivity|].
  destruct (initial_tree_ok Countdown.board 2) as [Hok Hvis].
  assert (think (stack := script_stack) 0 Countdown.board 2 first_choice
          = Raise RecursionError) as Hraise.
  { apply branch_search_raises; [done|]. unfold num_nodes. simpl. lia. }
  split; [|split; [|split; [exact Hraise|]]].
  - apply mcts_loop_modified_total; [done|done|simpl; lia].
  - apply (branch_loop 998 0 Countdown.board 2 first_choice 0);
      [done|by apply branch_initial|simpl; lia|simpl; lia].
  - intros act. by rewrite Hraise.
Qed.

Lemma think_runs_budget_witness :
  3 < @frames script_stack ∧
  ∃ tree g',
    mcts_loop (stack := script_stack) 3 (modified 0) board (2, 1)
              (current_player board (2, 1))
              (initial_tree board (2, 1), first_choice) = Ok (tree, g').
Proof.
  assert (3 < @frames script_stack) as Hroom by (simpl; lia).
  split; [exact Hroom|].
  exact (proj2 (proj2 (proj2 (proj2
    (think_runs_budget 3 0 board (2, 1) first_choice)))) Hroom).
Defined.




Lemma searched_counters_witness :
  engine (State := state) (Action := nat) (Cell := unit) (modified 0) ∧
  searched (modified 0) board (2, 1) two_token_tree ∧
  ∀ i n, two_token_tree !! i = Some n -> wins n ≤ visits n.
Proof.
  split; [constructor|]. split; [exact two_token_search|].
  exact (proj1 (searched_counters (modified 0) board (2, 1) two_token_tree
                  (engine_modified 0) two_token_search)).
Defined.

Lemma uct_scores_defined_witness :
  engine (State := state) (Action := nat) (Cell := unit) (modified 0) ∧
  searched (modified 0) board (2, 1) two_token_tree ∧
  ∀ i n, two_token_tree !! i = Some n -> i ≠ root_node -> 1 ≤ visits n.
Proof.
  split; [constructor|]. split; [exact two_token_search|].
  exact (proj1 (uct_scores_defined (modified 0) board (2, 1) two_token_tree
                  (engine_modified 0) two_token_search)).
Defined.


(** * Further properties of the engine *)

#[local] Arguments sample_move : simpl never.

Section Extras.

Context {State Action Cell : Type} `{EqDecision Action} {stack : CallStack}.

Implicit Types (tree : list (MCTSNode Action)) (n : MCTSNode Action).
Implicit Types (board : Board State Action Cell) (state : State) (g : Rng).

(** ** The helper [outcome] *)

Lemma owned_counts_le (owned : list (Cell * Identity)) :
  length (filter (λ kv : Cell * Identity, kv.2 = 1) owned)
  + length (filter (λ kv : Cell * Identity, kv.2 = 2) owned)
  ≤ length owned.
Proof.
  induction owned as [|[c v] rest IH]; [done|].
  rewrite !filter_cons. simpl.
  destruct (decide (v = 1)); destruct (decide (v = 2));
    simpl; lia.
Qed.

(** X1: the score of a position for red is the opposite of its score for
    blue, every identity is scored as one of the two, and without a point
    tally the score is bounded by the number of owned boxes. *)
Theorem outcome_zero_sum (me : Identity) (owned : list (Cell * Identity))
    (points : option (Z * Z)) :
  outcome 1 owned points = (- outcome 2%nat owned points)%Z ∧
  (outcome me owned points = outcome 1 owned points ∨
   outcome me owned points = outcome 2 owned points) ∧
  (Z.abs (outcome me owned None) <= Z.of_nat (length owned))%Z.
Proof.
  split; [|split].
  - unfold outcome. destruct points as [[r b]|]; simpl; lia.
  - unfold outcome. destruct (decide (me = 1)) as [->|Hne]; [by left|right].
    destruct points as [[r b]|]; simpl; done.
  - unfold outcome.
    pose proof (owned_counts_le owned) as Hsum. unfold Identity in *.
    destruct (decide (me = 1)); lia.
Qed.

(** ** The pure random rollout *)

Lemma choice_inv {A : Type} (seq : list A) g x g' :
  choice seq g = Ok (x, g') -> x ∈ seq ∧ g' = rng_next g.
Proof.
  intros Hc. assert (seq ≠ []) as Hne by (by destruct seq).
  destruct (choice_Ok seq g Hne) as (x' & Hc' & Hx').
  rewrite Hc in Hc'. by injection Hc' as -> ->.
Qed.

Lemma choice_Raise {A : Type} (seq : list A) g e :
  choice seq g = Raise e -> e = IndexError ∧ seq = [].
Proof. destruct seq; [by intros [= <-]|discriminate]. Qed.

Lemma choice_not_Diverge {A : Type} (seq : list A) g : choice seq g ≠ Diverge.
Proof. by destruct seq. Qed.

(** X2: when the pure random rollout returns, the state it returns is
    ended, it was reached from the input state by actions that were each
    legal where they were applied, at most [fuel] of them, and one random
    draw was used per action. *)
Theorem rollout_vanilla_plays_legal fuel board state g state' g' :
  rollout_vanilla fuel board state g = Ok (state', g') ->
  is_ended board state' = true ∧
  ∃ actions, legal_play board state actions ∧
             state' = play board state actions ∧
             length actions ≤ fuel ∧
             g' = Nat.iter (length actions) rng_next g.
Proof.
  revert state g. induction fuel as [|fuel IH]; intros state g; simpl;
    destruct (is_ended board state) eqn:He; simpl; try discriminate.
  - intros [= <- <-]. split; [done|]. exists []. repeat split; try done.
  - intros [= <- <-]. split; [done|]. exists []. repeat split; try done. simpl; lia.
  - destruct (choice (legal_actions board state) g) as [[a g1]| |] eqn:Hc;
      simpl; try discriminate.
    apply choice_inv in Hc as [Ha ->]. intros Hr.
    destruct (IH _ _ Hr) as (Hend & actions & Hlegal & -> & Hlen & ->).
    split; [done|]. exists (a :: actions).
    split; [done|]. split; [done|]. split; [simpl; lia|].
    simpl length. by rewrite Nat.iter_succ_r.
Qed.

(** X3: the only exception the pure random rollout raises is IndexError,
    and it raises it exactly when legal play has led to a state that is not
    ended and has no legal action. *)
Theorem rollout_vanilla_raises fuel board state g e :
  rollout_vanilla fuel board state g = Raise e ->
  e = IndexError ∧
  ∃ actions, legal_play board state actions ∧
             is_ended board (play board state actions) = false ∧
             legal_actions board (play board state actions) = [].
Proof.
  revert state g. induction fuel as [|fuel IH]; intros state g; simpl;
    destruct (is_ended board state) eqn:He; simpl; try discriminate.
  destruct (choice (legal_actions board state) g) as [[a g1]| |] eqn:Hc;
    simpl; try discriminate.
  - apply choice_inv in Hc as [Ha ->]. intros Hr.
    destruct (IH _ _ Hr) as (-> & actions & Hlegal & Hend & Hnone).
    split; [done|]. exists (a :: actions). simpl. repeat split; done.
  - intros [= <-]. apply choice_Raise in Hc as [-> Hnone].
    split; [done|]. exists []. simpl. repeat split; done.
Qed.

(** X4: on a game in which every state that is not ended has a legal
    action and every legal action decreases a measure of the state, the
    pure random rollout with fuel for that measure returns, and returns an
    ended state. *)
Theorem rollout_vanilla_terminates (measure : State -> nat) fuel board state g :
  (∀ s, is_ended board s = false -> legal_actions board s ≠ []) ->
  (∀ s a, is_ended board s = false -> a ∈ legal_actions board s ->
          measure (next_state board s a) < measure s) ->
  measure state ≤ fuel ->
  ∃ state' g', rollout_vanilla fuel board state g = Ok (state', g') ∧
               is_ended board state' = true.
Proof.
  intros Hmoves Hdec. revert state g.
  induction fuel as [|fuel IH]; intros state g Hm; simpl;
    destruct (is_ended board state) eqn:He; simpl; try eauto.
  - destruct (choice_Ok (legal_actions board state) g (Hmoves _ He))
      as (a & Hc & Ha).
    specialize (Hdec _ _ He Ha). lia.
  - destruct (choice_Ok (legal_actions board state) g (Hmoves _ He))
      as (a & -> & Ha). simpl.
    apply IH. specialize (Hdec _ _ He Ha). lia.
Qed.

(** ** The capped playout of the heuristic rollout *)

(** X5: a capped playout that returns has applied at most [depth] actions,
    each legal where it was applied, and it stopped early only on an ended
    state. *)
Theorem playout_plays_legal depth board state g state' g' :
  playout depth board state g = Ok (state', g') ->
  ∃ actions, legal_play board state actions ∧
             state' = play board state actions ∧
             length actions ≤ depth ∧
             (is_ended board state' = true ∨ length actions = depth) ∧
             g' = Nat.iter (length actions) rng_next g.
Proof.
  revert state g. induction depth as [|depth IH]; intros state g; simpl.
  - intros [= <- <-]. exists [].
    split; [done|]. split; [done|]. split; [done|]. split; [by right|done].
  - destruct (is_ended board state) eqn:He.
    + intros [= <- <-]. exists [].
      split; [done|]. split; [done|]. split; [simpl; lia|].
      split; [by left|done].
    + destruct (choice (legal_actions board state) g) as [[a g1]| |] eqn:Hc;
        simpl; try discriminate.
      apply choice_inv in Hc as [Ha ->]. intros Hr.
      destruct (IH _ _ Hr) as (actions & Hlegal & -> & Hlen & Hstop & ->).
      exists (a :: actions).
      split; [done|]. split; [done|]. split; [simpl; lia|]. split.
      * destruct Hstop as [?|?]; [by left|right; simpl; lia].
      * simpl length. by rewrite Nat.iter_succ_r.
Qed.

(** ** Expansion *)

Lemma dict_get_set {V : Type} (k : Action) (v : V) (d : list (Action * V)) :
  dict_get k (dict_set k v d) = Some v.
Proof.
  induction d as [|[k' v'] d IH]; simpl.
  - by rewrite decide_True.
  - destruct (decide (k = k')) as [->|Hne]; simpl.
    + by rewrite decide_True.
    + by rewrite decide_False.
Qed.

Lemma dict_get_set_ne {V : Type} (k k0 : Action) (v : V) (d : list (Action * V)) :
  k0 ≠ k -> dict_get k0 (dict_set k v d) = dict_get k0 d.
Proof.
  intros Hne. induction d as [|[k' v'] d IH]; simpl.
  - by rewrite decide_False.
  - destruct (decide (k = k')) as [->|Hne']; simpl; [by rewrite !decide_False|].
    destruct (decide (k0 = k')); done.
Qed.

Lemma list_remove_length (a : Action) (l : list Action) :
  a ∈ l -> S (length (list_remove a l)) = length l.
Proof.
  induction l as [|y l IH]; [by intros ?%elem_of_nil|]. simpl.
  destruct (decide (a = y)); [done|].
  intros [?|Hin]%elem_of_cons; [done|]. simpl. by rewrite IH.
Qed.

(** X7: on a node without untried action [expand_leaf] raises IndexError.
    Otherwise it takes one of the untried actions, advances the state it was
    given by this action, and adds exactly one node, which has the expanded
    node as parent, the action as [parent_action], the legal actions of the
    new state as untried actions, no child, and counters 0.  The expanded
    node loses the action from its untried actions and has the new node
    under this action in [child_nodes]; it keeps its other entries, and
    every other node is unchanged. *)
Theorem expand_leaf_effect tree node n board state g :
  tree !! node = Some n ->
  (untried_actions n = [] ->
     expand_leaf tree node board state g = Raise IndexError) ∧
  (untried_actions n ≠ [] ->
     ∃ action tree' n',
       action ∈ untried_actions n ∧
       expand_leaf tree node board state g
       = Ok (tree', length tree, next_state board state action, rng_next g) ∧
       length tree' = S (length tree) ∧
       tree' !! length tree
       = Some (mkNode (Some node) (Some action) []
                 (legal_actions board (next_state board state action)) 0 0) ∧
       tree' !! node = Some n' ∧
       parent n' = parent n ∧ parent_action n' = parent_action n ∧
       wins n' = wins n ∧ visits n' = visits n ∧
       untried_actions n' = list_remove action (untried_actions n) ∧
       S (length (untried_actions n')) = length (untried_actions n) ∧
       dict_get action (child_nodes n') = Some (length tree) ∧
       (∀ a, a ≠ action ->
          dict_get a (child_nodes n') = dict_get a (child_nodes n)) ∧
       (∀ i, i ≠ node -> i < length tree -> tree' !! i = tree !! i)).
Proof.
  intros Hn. apply lookup_node_Ok in Hn as Hl. unfold expand_leaf.
  rewrite Hl. simpl. split.
  - intros ->. done.
  - intros Hun.
    destruct (choice_Ok (untried_actions n) g Hun) as (action & -> & Hin). simpl.
    exists action. eexists _, (add_child action (length tree) n).
    split; [done|]. split; [done|].
    split; [by rewrite length_insert, length_app, Nat.add_comm|].
    split; [by eapply expand_store_new|].
    split; [apply list_lookup_insert_eq; rewrite length_app;
            apply lookup_lt_Some in Hn; lia|].
    simpl. repeat (split; [done|]).
    split; [by apply list_remove_length|].
    split; [apply dict_get_set|].
    split; [intros a Ha; by apply dict_get_set_ne|].
    intros i Hi Hlt. rewrite list_lookup_insert_ne by done.
    by apply lookup_app_l.
Qed.

(** ** Selection *)

(** X8: the node selection returns is the starting node or one of its
    descendants through [child_nodes], and it is a frontier: it has untried
    actions, or none of its children has a score above 0 (in particular, it
    has no child). *)
Theorem traverse_nodes_frontier fuel tree node board state identity leaf :
  traverse_nodes fuel tree node board state identity = Ok leaf ->
  descends tree node leaf ∧
  ∃ ln, tree !! leaf = Some ln ∧
    (untried_actions ln ≠ [] ∨
     ∃ vs, child_scores tree (visits ln) (child_nodes ln) = Ok vs ∧
           Forall (λ v, (v <= 0)%R) vs).
Proof.
  revert node. induction fuel as [|fuel IH]; intros node; simpl; [discriminate|].
  destruct (lookup_node tree node) as [n| |] eqn:Hn; simpl; try discriminate.
  apply lookup_node_Ok in Hn.
  destruct (untried_actions n) as [|a0 un] eqn:Hun.
  - destruct (uct_scan tree (visits n) (child_nodes n) 0 node)
      as [[b m]| |] eqn:Hscan; simpl; try discriminate.
    apply uct_scan_scores in Hscan as (vs & Hvs & Hcase).
    destruct (Req_dec_T b 0) as [->|Hb].
    + intros [= <-].
      destruct Hcase as [(_ & -> & Hall)|(i & a & _ & _ & Hpos & _)]; [|lra].
      split; [constructor|]. exists n. split; [done|]. right. by exists vs.
    + destruct Hcase as [(-> & _)|(i & a & Hi & _)]; [done|].
      intros Hr. destruct (IH _ Hr) as (Hdesc & Hfront).
      split; [|done]. eapply descends_child; eauto.
      eapply list_elem_of_lookup_2; eauto.
  - intros [= <-]. split; [constructor|]. exists n. split; [done|].
    left. by rewrite Hun.
Qed.

Lemma uct_scan_unvisited tree (t : nat) children b m :
  1 ≤ t ->
  (∀ a c, (a, c) ∈ children -> ∃ cn, tree !! c = Some cn) ->
  (∃ a c cn, (a, c) ∈ children ∧ tree !! c = Some cn ∧ visits cn = 0) ->
  uct_scan tree t children b m = Raise ZeroDivisionError.
Proof.
  intros Ht. revert b m.
  induction children as [|[a c] rest IH]; intros b m Hall Hzero; simpl.
  - destruct Hzero as (? & ? & ? & ?%elem_of_nil & _). done.
  - destruct (Hall a c) as [cn Hc]; [by left|].
    apply lookup_node_Ok in Hc as Hl. rewrite Hl. simpl.
    destruct (decide (visits cn = 0)) as [Hv|Hv].
    + unfold explore. by rewrite decide_True.
    + rewrite explore_Ok by lia. simpl.
      assert (Hrest : uct_scan tree t rest
                (INR (wins cn) / INR (visits cn)
                 + explore_faction * sqrt (ln (INR t) / INR (visits cn)))%R c
              = Raise ZeroDivisionError ∧
              uct_scan tree t rest b m = Raise ZeroDivisionError).
      { split; apply IH.
        all: try (intros a' c' Hin; apply (Hall a'); by right).
        all: destruct Hzero as (a' & c' & cn' & [Heq|Hin]%elem_of_cons & Hc' & Hz);
          [injection Heq as -> ->; congruence|by exists a', c', cn']. }
      destruct Hrest as [-> ->]. by destruct (Rgt_dec _ _).
Qed.

(** X9: on a node without untried action that has been visited,
    selection raises ZeroDivisionError as soon as one of the children it
    scores has never been visited. *)
Theorem traverse_nodes_unvisited_child fuel tree node n board state identity :
  tree !! node = Some n -> untried_actions n = [] -> 1 ≤ visits n ->
  (∀ a c, (a, c) ∈ child_nodes n -> ∃ cn, tree !! c = Some cn) ->
  (∃ a c cn, (a, c) ∈ child_nodes n ∧ tree !! c = Some cn ∧ visits cn = 0) ->
  traverse_nodes (S fuel) tree node board state identity
  = Raise ZeroDivisionError.
Proof.
  intros Hn%lookup_node_Ok Hun Hv Hall Hzero. simpl.
  rewrite Hn. simpl. rewrite Hun.
  by rewrite (uct_scan_unvisited _ _ _ _ _ Hv Hall Hzero).
Qed.

(** ** One pass of the loop, node by node *)

Lemma backpropagate_counted tree node won tree' :
  links_ok tree -> node < length tree ->
  backpropagate (length tree) tree node won = Ok tree' ->
  length tree' = length tree ∧
  ∀ i n, tree !! i = Some n ->
    ∃ n', tree' !! i = Some n' ∧ counted n n' ∧
          (i = node -> visits n' = visits n + 1).
Proof.
  intros Hl Hlen Hb.
  destruct (backpropagate_nodes tree node won Hl Hlen)
    as (tree'' & Hb' & Hlen' & Hold & _).
  assert (tree'' = tree') as -> by congruence.
  split; [done|]. intros i n Hi. eexists. split; [by apply Hold|].
  destruct (decide (i ∈ parent_chain (length tree) tree node)) as [Hin|Hnin].
  - split; [|done]. unfold counted. simpl. repeat split; try done; try lia.
    all: destruct won; lia.
  - split; [unfold counted; repeat split; try done; lia|].
    intros ->. exfalso. apply Hnin. apply parent_chain_self; lia.
Qed.

Lemma expand_leaf_inv tree leaf ln board state g tree1 node state1 g1 :
  tree !! leaf = Some ln ->
  expand_leaf tree leaf board state g = Ok (tree1, node, state1, g1) ->
  ∃ action, action ∈ untried_actions ln ∧ node = length tree ∧
    state1 = next_state board state action ∧
    tree1 = <[leaf := add_child action (length tree) ln]>
              (tree ++ [MCTSNode_new (Some leaf) (Some action)
                          (legal_actions board (next_state board state action))]).
Proof.
  intros Hl%lookup_node_Ok. unfold expand_leaf. rewrite Hl. simpl.
  destruct (choice (untried_actions ln) g) as [[action g2]| |] eqn:Hc;
    simpl; try discriminate.
  apply choice_inv in Hc as [Hin ->]. intros [= <- <- <- <-]. by exists action.
Qed.

(** The two stages of one pass: selection and expansion, which leave the
    tree as it is or add one node under the selected leaf, and then
    backpropagation from the root, the leaf or the new node. *)
Lemma mcts_step_decomp strat board state identity tree g tree' g' :
  engine strat -> tree_ok tree -> all_visited None tree ->
  mcts_step strat board state identity (tree, g) = Ok (tree', g') ->
  ∃ leaf ln tree1 node won,
    traverse_nodes frames tree root_node board state identity = Ok leaf ∧
    tree !! leaf = Some ln ∧ tree_ok tree1 ∧ node < length tree1 ∧
    backpropagate (length tree1) tree1 node won = Ok tree' ∧
    ((tree1 = tree ∧
      (untried_actions ln = [] ∨
       expand strat tree leaf board state g = Ok (tree, leaf, state, g))) ∨
     (∃ action, action ∈ untried_actions ln ∧ node = length tree ∧
        tree1 = <[leaf := add_child action (length tree) ln]>
                  (tree ++ [MCTSNode_new (Some leaf) (Some action)
                              (legal_actions board
                                 (next_state board state action))]))).
Proof.
  intros Hstrat Hok Hvis Hstep. unfold mcts_step in Hstep.
  apply bind_Ok in Hstep as (leaf & Htrav & Hstep).
  apply bind_Ok in Hstep as (ln & Hl%lookup_node_Ok & Hstep).
  apply bind_Ok in Hstep as ([[[tree1 node] sg] g1] & Hexp & Hstep).
  apply bind_Ok in Hstep as ([sg2 g2] & Hsim & Hstep).
  apply bind_Ok in Hstep as (tree2 & Hback & Hstep).
  injection Hstep as <- <-.
  assert (Hfull : tree_ok tree1 ->
            backpropagate (length tree1) tree1 node
              (bool_decide (current_player board sg2 ≠ identity)) = Ok tree2).
  { intros Hok1.
    by destruct (backpropagate_store _ _ _ _ _ (tree_ok_links _ Hok1) Hback). }
  exists leaf, ln, tree1, node, (bool_decide (current_player board sg2 ≠ identity)).
  split; [done|]. split; [done|].
  assert (leaf < length tree) as Hleaf by (eapply lookup_lt_Some; eauto).
  assert (root_node < length tree) as Hroot.
  { destruct (ok_root _ Hok) as (r & Hr & _). eapply lookup_lt_Some; eauto. }
  assert (Hgrow : expand_leaf tree leaf board state g = Ok (tree1, node, sg, g1) ->
            untried_actions ln ≠ [] ->
            tree_ok tree1 ∧ node < length tree1 ∧
            ∃ action, action ∈ untried_actions ln ∧ node = length tree ∧
              tree1 = <[leaf := add_child action (length tree) ln]>
                        (tree ++ [MCTSNode_new (Some leaf) (Some action)
                                    (legal_actions board
                                       (next_state board state action))])).
  { intros Hexp' Hun.
    destruct (expand_leaf_ok tree leaf ln board state g Hok Hvis Hl Hun)
      as (tree1' & state' & g1' & Hexp'' & Hok1 & _ & Hlen1 & _).
    rewrite Hexp' in Hexp''. injection Hexp'' as -> -> -> ->.
    destruct (expand_leaf_inv _ _ _ _ _ _ _ _ _ _ Hl Hexp')
      as (action & Hin & _ & _ & Htree1).
    split; [done|]. split; [lia|]. by exists action. }
  destruct (untried_actions ln) as [|a0 un] eqn:Hun.
  - injection Hexp as <- <- <- <-. split; [done|]. split; [done|].
    split; [by apply Hfull|]. left. split; [done|]. by left.
  - destruct Hstrat as [fuel|fuel]; simpl in Hexp.
    + destruct (Hgrow Hexp) as (? & ? & ?); [done|].
      split; [done|]. split; [done|]. split; [by apply Hfull|]. by right.
    + unfold expand_leaf_vanilla in Hexp.
      destruct (is_ended board state) eqn:He; simpl in Hexp.
      * injection Hexp as <- <- <- <-. split; [done|]. split; [done|].
        split; [by apply Hfull|]. left. split; [done|]. right. simpl.
        unfold expand_leaf_vanilla. by rewrite He.
      * destruct (Hgrow Hexp) as (? & ? & ?); [done|].
        split; [done|]. split; [done|]. split; [by apply Hfull|]. by right.
Qed.

(** What one pass does to the tree: either it adds no node and changes only
    counters, or it adds one node under the selected leaf and moves one
    action of the leaf from the untried actions to the children. *)
Lemma mcts_step_nodes strat board state identity tree g tree' g' :
  engine strat -> tree_ok tree -> all_visited None tree ->
  mcts_step strat board state identity (tree, g) = Ok (tree', g') ->
  ∃ leaf ln,
    traverse_nodes frames tree root_node board state identity = Ok leaf ∧
    tree !! leaf = Some ln ∧
    ((length tree' = length tree ∧
      (untried_actions ln = [] ∨
       expand strat tree leaf board state g = Ok (tree, leaf, state, g)) ∧
      ∀ i n, tree !! i = Some n -> ∃ n', tree' !! i = Some n' ∧ counted n n') ∨
     (∃ action new,
        action ∈ untried_actions ln ∧ length tree' = S (length tree) ∧
        tree' !! length tree = Some new ∧
        counted (MCTSNode_new (Some leaf) (Some action)
                   (legal_actions board (next_state board state action))) new ∧
        visits new = 1 ∧
        ∀ i n, tree !! i = Some n ->
          ∃ n', tree' !! i = Some n' ∧
            counted (if decide (i = leaf)
                     then add_child action (length tree) n else n) n')).
Proof.
  intros Hstrat Hok Hvis Hstep.
  destruct (mcts_step_decomp _ _ _ _ _ _ _ _ Hstrat Hok Hvis Hstep)
    as (leaf & ln & tree1 & node & won & Htrav & Hl & Hok1 & Hnode & Hback & Hcase).
  exists leaf, ln. split; [done|]. split; [done|].
  destruct (backpropagate_counted _ _ _ _ (tree_ok_links _ Hok1) Hnode Hback)
    as [Hlen Hall].
  destruct Hcase as [[-> Hwhy]|(action & Hin & -> & ->)].
  - left. split; [done|]. split; [done|]. intros i n Hi.
    destruct (Hall i n Hi) as (n' & ? & ? & _). eauto.
  - right. exists action.
    set (new0 := MCTSNode_new (Some leaf) (Some action)
                   (legal_actions board (next_state board state action))) in *.
    assert (<[leaf := add_child action (length tree) ln]> (tree ++ [new0])
              !! length tree = Some new0) as Hnew by (by eapply expand_store_new).
    destruct (Hall _ _ Hnew) as (new & Hnew2 & Hcnt & Hv).
    exists new. split; [done|].
    split; [by rewrite Hlen, length_insert, length_app, Nat.add_comm|].
    split; [done|]. split; [done|]. split; [by rewrite Hv|].
    intros i n Hi.
    assert (<[leaf := add_child action (length tree) ln]> (tree ++ [new0]) !! i
            = Some (if decide (i = leaf)
                    then add_child action (length tree) ln else n))
      as Hi1 by (by eapply expand_store_old).
    destruct (Hall _ _ Hi1) as (n' & Hn' & Hcnt' & _).
    exists n'. split; [done|].
    destruct (decide (i = leaf)) as [->|]; [|done].
    assert (n = ln) as -> by congruence. done.
Qed.

(** X10: a pass of a search never removes or re-links a node and adds at
    most one.  If it adds none, only counters change, by at most one visit
    and one win per node.  If it adds one, the new node is a child of the
    selected leaf under one of the leaf's untried actions, it has been
    visited once, its untried actions are the legal actions after applying
    that action to the state the search started from, and the leaf alone
    moves that action from its untried actions to its children. *)
Theorem mcts_step_grows strat board state tree g tree' g' :
  engine strat -> searched strat board state tree ->
  mcts_step strat board state (current_player board state) (tree, g)
    = Ok (tree', g') ->
  (length tree' = length tree ∧
   ∀ i n, tree !! i = Some n -> ∃ n', tree' !! i = Some n' ∧ counted n n') ∨
  (∃ leaf ln action new,
     tree !! leaf = Some ln ∧ action ∈ untried_actions ln ∧
     length tree' = S (length tree) ∧ tree' !! length tree = Some new ∧
     parent new = Some leaf ∧ parent_action new = Some action ∧
     child_nodes new = [] ∧
     untried_actions new
     = legal_actions board (next_state board state action) ∧
     visits new = 1 ∧
     ∀ i n, tree !! i = Some n ->
       ∃ n', tree' !! i = Some n' ∧
         counted (if decide (i = leaf)
                  then add_child action (length tree) n else n) n').
Proof.
  intros Hstrat Hs Hstep. destruct (searched_ok _ _ _ _ Hstrat Hs) as [Hok Hvis].
  destruct (mcts_step_nodes _ _ _ _ _ _ _ _ Hstrat Hok Hvis Hstep)
    as (leaf & ln & _ & Hl & [(Hlen & _ & Hall)|
          (action & new & Hin & Hlen & Hnew & Hcnt & Hv & Hall)]).
  - by left.
  - right. exists leaf, ln, action, new.
    destruct Hcnt as (Hp & Hpa & Hch & Hun & _).
    repeat (split; [done|]). done.
Qed.

(** ** The loop of the driver *)

Lemma mcts_loop_counts_from budget strat board state identity tree g tree' g' r :
  engine strat -> tree_ok tree -> all_visited None tree ->
  tree !! root_node = Some r ->
  mcts_loop budget strat board state identity (tree, g) = Ok (tree', g') ->
  tree_ok tree' ∧ all_visited None tree' ∧
  (∃ r', tree' !! root_node = Some r' ∧ visits r' = visits r + budget) ∧
  length tree ≤ length tree' ≤ length tree + budget.
Proof.
  intros Hstrat. revert tree g r.
  induction budget as [|budget IH]; intros tree g r Hok Hvis Hr; simpl.
  - intros [= <- <-]. split; [done|]. split; [done|]. split; [|lia].
    exists r. split; [done|lia].
  - intros Hloop. apply bind_Ok in Hloop as ([tree1 g1] & Hstep & Hloop).
    destruct (mcts_step_inv _ _ _ _ _ _ _ _ Hstrat Hok Hvis Hstep)
      as (Hok1 & Hvis1 & Hroot).
    destruct (Hroot r Hr) as (r1 & Hr1 & Hv1).
    destruct (IH _ _ _ Hok1 Hvis1 Hr1 Hloop) as (Hok' & Hvis' & (r' & Hr' & Hv') & Hlen).
    split; [done|]. split; [done|]. split; [exists r'; split; [done|lia]|].
    destruct (mcts_step_nodes _ _ _ _ _ _ _ _ Hstrat Hok Hvis Hstep)
      as (_ & _ & _ & _ & [(Hlen1 & _)|(_ & _ & _ & Hlen1 & _)]); lia.
Qed.

(** X11: when the loop of either engine has made [budget] passes, the root
    has been visited exactly [budget] times, it has at most [budget] wins,
    and the tree has at least one and at most [budget + 1] nodes. *)
Theorem mcts_loop_counts budget strat board state g tree g' :
  engine strat ->
  mcts_loop budget strat board state (current_player board state)
            (initial_tree board state, g) = Ok (tree, g') ->
  (∃ root, tree !! root_node = Some root ∧ visits root = budget ∧
           wins root ≤ budget) ∧
  1 ≤ length tree ≤ S budget.
Proof.
  intros Hstrat Hloop. destruct (initial_tree_ok board state) as [Hok Hvis].
  destruct (mcts_loop_counts_from _ _ _ _ _ _ _ _ _ _ Hstrat Hok Hvis eq_refl Hloop)
    as (Hok' & _ & (root & Hroot & Hv) & Hlen).
  simpl in Hv, Hlen. split; [|lia].
  exists root. split; [done|]. split; [done|].
  pose proof (ok_wins _ Hok' _ _ Hroot). lia.
Qed.

(** ** The action the drivers return *)

Lemma elem_of_dict_set_keys {V : Type} (k : Action) (v : V)
    (d : list (Action * V)) a :
  a ∈ (dict_set k v d).*1 -> a = k ∨ a ∈ d.*1.
Proof.
  intros ([a' v'] & -> & Hin)%list_elem_of_fmap.
  apply elem_of_dict_set in Hin as [[= -> ->]|Hin]; [by left|right].
  apply list_elem_of_fmap. by exists (a', v').
Qed.

Lemma elem_of_list_remove (a x : Action) (l : list Action) :
  x ∈ list_remove a l -> x ∈ l.
Proof.
  induction l as [|y l IH]; simpl; [done|].
  destruct (decide (a = y)); [by right|].
  intros [->|Hin]%elem_of_cons; [by left|]. right. by apply IH.
Qed.

(** The actions the root holds, expanded or untried, are legal actions of
    the state the search started from. *)
Lemma searched_root_actions strat board state tree :
  engine strat -> searched strat board state tree ->
  ∃ root, tree !! root_node = Some root ∧
    ∀ a, a ∈ expanded_actions root ∨ a ∈ untried_actions root ->
         a ∈ legal_actions board state.
Proof.
  intros Hstrat. induction 1 as [|tree g tree' g' Hs (root & Hroot & Hin) Hstep].
  - eexists. split; [done|]. simpl. intros a [Ha|Ha]; [|done].
    by apply elem_of_nil in Ha.
  - destruct (searched_ok _ _ _ _ Hstrat Hs) as [Hok Hvis].
    destruct (mcts_step_nodes _ _ _ _ _ _ _ _ Hstrat Hok Hvis Hstep)
      as (leaf & ln & _ & Hl & [(_ & _ & Hall)|
            (action & new & Hact & _ & _ & _ & _ & Hall)]);
      destruct (Hall _ _ Hroot) as (root' & Hroot' & _ & _ & Hch & Hun & _);
      exists root'; (split; [done|]); unfold expanded_actions in *;
      rewrite Hch, Hun.
    + done.
    + destruct (decide (root_node = leaf)) as [<-|]; [|done]. simpl.
      assert (ln = root) as -> by congruence.
      intros a [[->|Ha]%elem_of_dict_set_keys|Ha%elem_of_list_remove]; eauto.
Qed.

Lemma final_action_expanded strat board state tree a :
  engine strat -> searched strat board state tree ->
  final_action tree = Ok (Some a) -> a ∈ legal_actions board state.
Proof.
  intros Hstrat Hs Hfin. destruct (searched_ok _ _ _ _ Hstrat Hs) as [Hok Hvis].
  destruct (searched_root_actions _ _ _ _ Hstrat Hs) as (root & Hroot & Hin).
  destruct (final_action_spec tree Hok Hvis)
    as (root' & Hroot' & [[_ Hnone]|(i & a' & c & cn & Hi & _ & _ & Hfin' & _)]);
    [congruence|].
  assert (root' = root) as -> by congruence.
  assert (a' = a) as -> by congruence.
  apply Hin. left. apply list_elem_of_fmap. exists (a, c). split; [done|].
  eapply list_elem_of_lookup_2; eauto.
Qed.

Lemma drivers_legal_helper strat budget board state g a :
  engine strat -> think_budget budget strat board state g = Ok (Some a) ->
  a ∈ legal_actions board state.
Proof.
  intros Hstrat Ht. apply think_budget_searched in Ht as (tree & Hs & Hfin).
  by eapply final_action_expanded.
Qed.

(** X12: an action returned by a driver, of either engine, is a legal
    action of the state the driver was called on. *)
Theorem drivers_return_legal_action strat budget loop_fuel fuel clock
    board state g a :
  engine strat ->
  think_budget budget strat board state g = Ok (Some a) ∨
  think_time loop_fuel fuel clock board state g = Ok (Some a) ->
  a ∈ legal_actions board state.
Proof.
  intros Hstrat [Ht|Ht].
  - by eapply drivers_legal_helper.
  - apply think_time_searched in Ht as (tree & Hs & Hfin).
    eapply final_action_expanded; [|done..]. constructor.
Qed.

(** After a pass of the iteration-budget engine from a tree whose root has
    a child or an untried action, the root has a child. *)
Lemma modified_step_root_child fuel board state identity tree g tree' g' root :
  tree_ok tree -> all_visited None tree -> tree !! root_node = Some root ->
  child_nodes root ≠ [] ∨ untried_actions root ≠ [] ->
  mcts_step (modified fuel) board state identity (tree, g) = Ok (tree', g') ->
  ∃ root', tree' !! root_node = Some root' ∧ child_nodes root' ≠ [].
Proof.
  intros Hok Hvis Hroot Hsome Hstep.
  assert (untried_actions root ≠ [] ->
          traverse_nodes frames tree root_node board state identity
          = Ok root_node) as Hstop.
  { intros Hun. pose proof frames_pos as Hpos.
    destruct frames as [|k]; [lia|]. simpl.
    apply lookup_node_Ok in Hroot. rewrite Hroot. simpl.
    by destruct (untried_actions root). }
  assert (∀ leaf ln, traverse_nodes frames tree root_node board state
                       identity = Ok leaf ->
            tree !! leaf = Some ln ->
            untried_actions ln = [] ∨ leaf ≠ root_node ->
            child_nodes root ≠ []) as Hfull.
  { intros leaf ln Htrav Hl Hcase.
    destruct Hsome as [?|Hun]; [done|].
    rewrite (Hstop Hun) in Htrav. injection Htrav as <-.
    assert (ln = root) as -> by congruence. by destruct Hcase. }
  destruct (mcts_step_nodes _ _ _ _ _ _ _ _ (engine_modified fuel) Hok Hvis Hstep)
    as (leaf & ln & Htrav & Hl & [(_ & Hwhy & Hall)|
          (action & new & Hact & _ & _ & _ & _ & Hall)]);
    destruct (Hall _ _ Hroot) as (root' & Hroot' & _ & _ & Hch & _);
    exists root'; (split; [done|]); rewrite Hch.
  - destruct Hwhy as [Hun|Hexp]; [eapply Hfull; eauto|].
    simpl in Hexp.
    destruct (expand_leaf_inv _ _ _ _ _ _ _ _ _ _ Hl Hexp) as (? & _ & Hlen & _).
    apply lookup_lt_Some in Hl. lia.
  - destruct (decide (root_node = leaf)) as [<-|Hne].
    + simpl. by destruct (child_nodes root) as [|[??] ?]; simpl;
        try destruct (decide _).
    + eapply Hfull; eauto.
Qed.

Lemma modified_loop_root_child budget fuel board state identity tree g tree' g' root :
  tree_ok tree -> all_visited None tree -> tree !! root_node = Some root ->
  child_nodes root ≠ [] ->
  mcts_loop budget (modified fuel) board state identity (tree, g)
    = Ok (tree', g') ->
  ∃ root', tree' !! root_node = Some root' ∧ child_nodes root' ≠ [].
Proof.
  revert tree g root.
  induction budget as [|budget IH]; intros tree g root Hok Hvis Hroot Hch; simpl.
  - intros [= <- <-]. eauto.
  - intros Hloop. apply bind_Ok in Hloop as ([tree1 g1] & Hstep & Hloop).
    destruct (mcts_step_inv _ _ _ _ _ _ _ _ (engine_modified fuel) Hok Hvis Hstep)
      as (Hok1 & Hvis1 & _).
    destruct (modified_step_root_child _ _ _ _ _ _ _ _ _ Hok Hvis Hroot
                (or_introl Hch) Hstep) as (root1 & Hroot1 & Hch1).
    eapply IH; eauto.
Qed.

(** What the iteration-budget driver returns on a state with a legal
    action is a legal action. *)
Lemma think_budget_modified_legal k fuel board state g act :
  legal_actions board state ≠ [] -> 1 ≤ k ->
  think_budget k (modified fuel) board state g = Ok act ->
  ∃ a, act = Some a ∧ a ∈ legal_actions board state.
Proof.
  intros Hlegal Hk Ht. destruct k as [|k]; [lia|].
  destruct (initial_tree_ok board state) as [Hok Hvis].
  pose proof Ht as Hrun. unfold think_budget in Hrun.
  apply bind_Ok in Hrun as ([tree g'] & Hloop & Hfin).
  destruct (mcts_loop_root_visits (S k) (modified fuel) board state
              (current_player board state) (initial_tree board state) g tree g'
              _ (engine_modified fuel) Hok Hvis eq_refl Hloop)
    as (Hok' & Hvis' & _).
  assert (∃ root, tree !! root_node = Some root ∧ child_nodes root ≠ [])
    as (root & Hroot & Hch).
  { simpl in Hloop. apply bind_Ok in Hloop as ([tree1 g1] & Hstep & Hloop).
    destruct (mcts_step_inv _ _ _ _ _ _ _ _ (engine_modified fuel) Hok Hvis Hstep)
      as (Hok1 & Hvis1 & _).
    destruct (modified_step_root_child _ _ _ _ _ _ _ _ _ Hok Hvis eq_refl
                (or_intror Hlegal) Hstep) as (root1 & Hroot1 & Hch1).
    eapply modified_loop_root_child; eauto. }
  destruct (final_action_spec tree Hok' Hvis')
    as (root' & Hroot' & [[Hnone _]|(i & a & c & cn & _ & _ & _ & Hfin' & _)]);
    [congruence|].
  exists a. assert (act = Some a) as -> by congruence.
  split; [done|].
  eapply (drivers_legal_helper (modified fuel)); eauto. constructor.
Qed.

(** The iteration-budget driver returns, or raises RecursionError; it
    returns when the call stack has more frames than the budget. *)
Lemma think_budget_modified_cases k fuel board state g :
  ((∃ act, think_budget k (modified fuel) board state g = Ok act) ∨
   think_budget k (modified fuel) board state g = Raise RecursionError) ∧
  (k < frames -> ∃ act, think_budget k (modified fuel) board state g = Ok act).
Proof.
  destruct (initial_tree_ok board state) as [Hok Hvis].
  assert (Hfin : ∀ tree g',
    mcts_loop k (modified fuel) board state (current_player board state)
              (initial_tree board state, g) = Ok (tree, g') ->
    ∃ act, think_budget k (modified fuel) board state g = Ok act).
  { intros tree g' Hloop.
    destruct (mcts_loop_root_visits k (modified fuel) board state
                (current_player board state) (initial_tree board state) g tree g'
                _ (engine_modified fuel) Hok Hvis eq_refl Hloop)
      as (Hok' & Hvis' & _).
    unfold think_budget. rewrite Hloop. simpl.
    destruct (final_action_spec tree Hok' Hvis')
      as (_ & _ & [[_ ?]|(_ & a & _ & _ & _ & _ & _ & ? & _)]); eauto. }
  split.
  - destruct (mcts_loop_modified_cases k fuel board state
                (current_player board state) (initial_tree board state) g Hok Hvis)
      as [(tree & g' & Hloop)|Hraise]; [left; eauto|right].
    unfold think_budget. by rewrite Hraise.
  - intros Hroom.
    destruct (mcts_loop_modified_total k fuel board state
                (current_player board state) (initial_tree board state) g Hok Hvis)
      as (tree & g' & Hloop); [simpl; lia|eauto].
Qed.

(** X13: called on a state that has a legal action, with a budget of at
    least one pass, the iteration-budget engine returns an action that is
    legal in that state, or it raises RecursionError; it never returns None
    or an action that is not legal there, and it raises nothing else.  It
    returns when the call stack has more frames than the budget.  The same
    holds for [think], whose budget is 1000. *)
Theorem think_chooses_legal_action budget fuel board state g :
  legal_actions board state ≠ [] -> 1 ≤ budget ->
  ((∃ a, think_budget budget (modified fuel) board state g = Ok (Some a) ∧
         a ∈ legal_actions board state) ∨
   think_budget budget (modified fuel) board state g = Raise RecursionError) ∧
  (budget < frames ->
   ∃ a, think_budget budget (modified fuel) board state g = Ok (Some a) ∧
        a ∈ legal_actions board state) ∧
  ((∃ a, think fuel board state g = Ok (Some a) ∧
         a ∈ legal_actions board state) ∨
   think fuel board state g = Raise RecursionError) ∧
  (num_nodes < frames ->
   ∃ a, think fuel board state g = Ok (Some a) ∧
        a ∈ legal_actions board state).
Proof.
  intros Hlegal Hb.
  assert (Hgen : ∀ k, 1 ≤ k ->
    ((∃ a, think_budget k (modified fuel) board state g = Ok (Some a) ∧
           a ∈ legal_actions board state) ∨
     think_budget k (modified fuel) board state g = Raise RecursionError) ∧
    (k < frames ->
     ∃ a, think_budget k (modified fuel) board state g = Ok (Some a) ∧
          a ∈ legal_actions board state)).
  { intros k Hk.
    destruct (think_budget_modified_cases k fuel board state g) as [Hcases Htotal].
    split.
    - destruct Hcases as [[act Ht]|?]; [left|by right].
      destruct (think_budget_modified_legal k fuel board state g act Hlegal Hk Ht)
        as (a & -> & Hin). eauto.
    - intros Hroom. destruct (Htotal Hroom) as [act Ht].
      destruct (think_budget_modified_legal k fuel board state g act Hlegal Hk Ht)
        as (a & -> & Hin). eauto. }
  destruct (Hgen budget Hb) as [H1 H2].
  destruct (Hgen num_nodes ltac:(unfold num_nodes; lia)) as [H3 H4].
  done.
Qed.


(** ** The bookkeeping of expansion *)

Lemma dict_set_fresh {V : Type} (k : Action) (v : V) (d : list (Action * V)) :
  k ∉ d.*1 -> dict_set k v d = d ++ [(k, v)].
Proof.
  induction d as [|[k' v'] d IH]; simpl; [done|].
  intros Hnin. destruct (decide (k = k')) as [->|Hne].
  - exfalso. apply Hnin. by left.
  - rewrite IH; [done|]. intros Hin. apply Hnin. by right.
Qed.

Lemma dict_get_Some_key {V : Type} (k : Action) (v : V) (d : list (Action * V)) :
  dict_get k d = Some v -> k ∈ d.*1.
Proof.
  induction d as [|[k' v'] d IH]; simpl; [done|].
  destruct (decide (k = k')) as [->|Hne]; [by left|].
  intros Hd. right. by apply IH.
Qed.

Lemma list_remove_perm (a : Action) (l : list Action) :
  a ∈ l -> l ≡ₚ a :: list_remove a l.
Proof.
  induction l as [|y l IH]; [by intros ?%elem_of_nil|]. simpl.
  destruct (decide (a = y)) as [->|Hne]; [done|].
  intros [?|Hin]%elem_of_cons; [done|].
  rewrite (IH Hin) at 1. apply Permutation_swap.
Qed.

Lemma expansion_bookkeeping n (action : Action) (c : nat) :
  actions_ok n -> action ∈ untried_actions n ->
  (action ∉ expanded_actions n) ∧
  ((expanded_actions (add_child action c n)
      ++ untried_actions (add_child action c n))
   ≡ₚ (expanded_actions n ++ untried_actions n)).
Proof.
  unfold actions_ok, expanded_actions. intros Hnd Hin.
  apply NoDup_app in Hnd as (_ & Hdisj & _).
  assert (action ∉ (child_nodes n).*1) as Hfresh.
  { intros Hk. by apply (Hdisj _ Hk). }
  split; [done|]. simpl. rewrite dict_set_fresh by done.
  rewrite fmap_app. simpl. rewrite <- app_assoc. simpl.
  by rewrite <- list_remove_perm.
Qed.

Lemma searched_books strat board state tree :
  engine strat -> (∀ s, NoDup (legal_actions board s)) ->
  searched strat board state tree ->
  (∀ i n, tree !! i = Some n -> actions_ok n) ∧
  (∃ root, tree !! root_node = Some root ∧
     ((expanded_actions root ++ untried_actions root)
      ≡ₚ legal_actions board state)) ∧
  registered tree.
Proof.
  intros Hstrat Hnodup.
  induction 1 as [|tree g tree' g' Hs (Hact & (root & Hroot & Hperm) & Hreg) Hstep].
  - split; [|split].
    + intros [|i] n; simpl; [|by rewrite lookup_nil].
      intros [= <-]. unfold actions_ok. simpl. apply Hnodup.
    + eexists. split; [done|]. done.
    + intros [|c] cn p a; simpl; [|by rewrite lookup_nil].
      intros [= <-]. done.
  - destruct (searched_ok _ _ _ _ Hstrat Hs) as [Hok Hvis].
    destruct (mcts_step_nodes _ _ _ _ _ _ _ _ Hstrat Hok Hvis Hstep)
      as (leaf & ln & _ & Hl & [(Hlen & _ & Hall)|
            (action & new & Hin & Hlen & Hnew & Hcnew & _ & Hall)]).
    + (* no node added *)
      assert (Hfrom : ∀ i n', tree' !! i = Some n' ->
                ∃ n, tree !! i = Some n ∧ counted n n').
      { intros i n' Hi. apply lookup_lt_Some in Hi as Hlt. rewrite Hlen in Hlt.
        destruct (lookup_lt_is_Some_2 tree i Hlt) as [n Hn]. exists n.
        split; [done|]. destruct (Hall _ _ Hn) as (n'' & Hn'' & Hc). congruence. }
      split; [|split].
      * intros i n' Hi. destruct (Hfrom _ _ Hi) as (n & Hn & _ & _ & Hch & Hun & _).
        unfold actions_ok, expanded_actions. rewrite Hch, Hun. by eapply Hact.
      * destruct (Hall _ _ Hroot) as (root' & Hroot' & _ & _ & Hch & Hun & _).
        exists root'. split; [done|]. unfold expanded_actions.
        by rewrite Hch, Hun.
      * intros c cn' p a Hc Hp Hpa.
        destruct (Hfrom _ _ Hc) as (cn & Hcn & Hp' & Hpa' & _).
        destruct (Hreg c cn p a Hcn) as (pn & Hpn & Hget); [congruence..|].
        destruct (Hall _ _ Hpn) as (pn' & Hpn' & _ & _ & Hch & _).
        exists pn'. split; [done|]. by rewrite Hch.
    + (* one node added under [leaf] *)
      destruct (expansion_bookkeeping ln action (length tree) (Hact _ _ Hl) Hin)
        as [Hfresh Hpermleaf].
      assert (Hfrom : ∀ i n', tree' !! i = Some n' ->
                (i = length tree ∧ n' = new) ∨
                (∃ n, tree !! i = Some n ∧
                   counted (if decide (i = leaf)
                            then add_child action (length tree) n else n) n')).
      { intros i n' Hi. apply lookup_lt_Some in Hi as Hlt. rewrite Hlen in Hlt.
        destruct (decide (i = length tree)) as [->|Hne]; [left; split; congruence|].
        right. assert (i < length tree) as Hlt' by lia.
        destruct (lookup_lt_is_Some_2 tree i Hlt') as [n Hn]. exists n.
        split; [done|]. destruct (Hall _ _ Hn) as (n'' & Hn'' & Hc). congruence. }
      split; [|split].
      * intros i n' Hi.
        destruct (Hfrom _ _ Hi) as [[-> ->]|(n & Hn & _ & _ & Hch & Hun & _)].
        -- destruct Hcnew as (_ & _ & Hch & Hun & _).
           unfold actions_ok, expanded_actions. rewrite Hch, Hun. simpl.
           apply Hnodup.
        -- unfold actions_ok, expanded_actions. rewrite Hch, Hun.
           destruct (decide (i = leaf)) as [->|]; [|by eapply Hact].
           assert (n = ln) as -> by congruence.
           fold (expanded_actions (add_child action (length tree) ln)).
           rewrite Hpermleaf. by apply (Hact _ _ Hl).
      * destruct (Hall _ _ Hroot) as (root' & Hroot' & _ & _ & Hch & Hun & _).
        exists root'. split; [done|]. unfold expanded_actions.
        rewrite Hch, Hun.
        destruct (decide (root_node = leaf)) as [<-|]; [|done].
        assert (ln = root) as -> by congruence.
        fold (expanded_actions (add_child action (length tree) root)).
        by rewrite Hpermleaf.
      * intros c cn' p a Hc Hp Hpa.
        destruct (Hfrom _ _ Hc) as [[-> ->]|(cn & Hcn & Hp' & Hpa' & _)].
        -- destruct Hcnew as (Hp' & Hpa' & _). simpl in Hp', Hpa'.
           assert (p = leaf) as -> by congruence.
           assert (a = action) as -> by congruence.
           destruct (Hall _ _ Hl) as (ln' & Hln' & _ & _ & Hch & _).
           exists ln'. split; [done|]. rewrite Hch, decide_True by done.
           simpl. apply dict_get_set.
        -- assert (parent cn = Some p ∧ parent_action cn = Some a) as [Hp0 Hpa0].
           { destruct (decide (c = leaf)); simpl in Hp', Hpa'; split; congruence. }
           destruct (Hreg c cn p a Hcn Hp0 Hpa0) as (pn & Hpn & Hget).
           destruct (Hall _ _ Hpn) as (pn' & Hpn' & _ & _ & Hch & _).
           exists pn'. split; [done|]. rewrite Hch.
           destruct (decide (p = leaf)) as [->|]; [|done].
           assert (pn = ln) as -> by congruence. simpl.
           rewrite dict_get_set_ne; [done|].
           intros ->. apply Hfresh. by eapply dict_get_Some_key.
Qed.

(** X14: on a game whose lists of legal actions have no duplicates, in
    the tree of a search no node has an action expanded twice or both
    expanded and untried; the expanded and the untried actions of the root
    are together the legal actions of the state the search started from;
    and every node but the root is found in the children of its parent
    under its [parent_action]. *)
Theorem searched_bookkeeping strat board state tree :
  engine strat -> (∀ s, NoDup (legal_actions board s)) ->
  searched strat board state tree ->
  (∀ i n, tree !! i = Some n ->
     NoDup (expanded_actions n ++ untried_actions n)) ∧
  (∃ root, tree !! root_node = Some root ∧
     ((expanded_actions root ++ untried_actions root)
      ≡ₚ legal_actions board state)) ∧
  (∀ c cn p a, tree !! c = Some cn -> parent cn = Some p ->
     parent_action cn = Some a ->
     ∃ pn, tree !! p = Some pn ∧ dict_get a (child_nodes pn) = Some c).
Proof. apply searched_books. Qed.

(** ** The wall-clock driver *)

Lemma timed_loop_passes loop_fuel strat board state identity start elapsed
    clock st st' :
  timed_loop loop_fuel strat board state identity start elapsed clock st
    = Ok st' ->
  ∃ k, k ≤ loop_fuel ∧
    mcts_loop k strat board state identity st = Ok st' ∧
    (∀ j, j < k ->
       PrimFloat.leb (match j with
                      | 0 => elapsed
                      | S i => PrimFloat.sub (clock i) start
                      end) 1 = true) ∧
    PrimFloat.leb (match k with
                   | 0 => elapsed
                   | S i => PrimFloat.sub (clock i) start
                   end) 1 = false.
Proof.
  revert elapsed clock st.
  induction loop_fuel as [|fuel IH]; intros elapsed clock st; simpl;
    destruct (PrimFloat.leb elapsed 1) eqn:He; try discriminate.
  - intros [= <-]. exists 0. split; [lia|]. split; [done|]. split; [|done].
    intros j Hj. lia.
  - intros Hloop. apply bind_Ok in Hloop as (st1 & Hstep & Hloop).
    destruct (IH _ _ _ Hloop) as (k & Hk & Hpasses & Hin & Hout).
    exists (S k). split; [lia|]. split; [simpl; by rewrite Hstep|]. split.
    + intros [|j] Hj; [done|]. specialize (Hin j ltac:(lia)).
      destruct j as [|j]; done.
    + destruct k as [|k]; done.
  - intros [= <-]. exists 0. split; [lia|]. split; [done|]. split; [|done].
    intros j Hj. lia.
Qed.

(** X15: when the wall-clock driver returns, it has made exactly the
    passes before which the time elapsed, the float difference between the
    last reading of the clock and the first, was at most 1, the clock being
    read once after each pass; and it returns what the iteration-budget loop
    of the same engine returns for that number of passes. *)
Theorem think_time_as_budget loop_fuel fuel clock board state g act :
  think_time loop_fuel fuel clock board state g = Ok act ->
  ∃ k, k ≤ loop_fuel ∧
    think_budget k (vanilla fuel) board state g = Ok act ∧
    (∀ j, j < k -> PrimFloat.leb (elapsed_at clock j) 1 = true) ∧
    PrimFloat.leb (elapsed_at clock k) 1 = false.
Proof.
  unfold think_time. intros Ht.
  apply bind_Ok in Ht as ([tree g'] & Hloop & Hfin).
  apply timed_loop_passes in Hloop as (k & Hk & Hpasses & Hin & Hout).
  exists k. split; [done|]. split; [unfold think_budget; by rewrite Hpasses|].
  split.
  - intros j Hj. specialize (Hin j Hj). by destruct j.
  - by destruct k.
Qed.

(** X16: on a state with exactly one legal action [think] returns that
    action or raises RecursionError, and it returns when the call stack has
    more frames than its budget of 1000 passes. *)
Theorem think_single_action fuel board state g (a : Action) :
  legal_actions board state = [a] ->
  (think fuel board state g = Ok (Some a) ∨
   think fuel board state g = Raise RecursionError) ∧
  (num_nodes < frames -> think fuel board state g = Ok (Some a)).
Proof.
  intros Hl.
  assert (Hone : ∀ act, think fuel board state g = Ok act -> act = Some a).
  { intros act Ht.
    destruct (think_budget_modified_legal num_nodes fuel board state g act)
      as (a' & -> & Hin); [by rewrite Hl|unfold num_nodes; lia|done|].
    rewrite Hl in Hin. by apply list_elem_of_singleton in Hin as ->. }
  destruct (think_budget_modified_cases num_nodes fuel board state g)
    as [Hcases Htotal]. fold (think fuel board state g) in Hcases, Htotal.
  split.
  - destruct Hcases as [[act Ht]|?]; [left|by right].
    by rewrite Ht, (Hone act Ht).
  - intros Hroom. destruct (Htotal Hroom) as [act Ht].
    by rewrite Ht, (Hone act Ht).
Qed.

(** ** The visits of a node and of its children *)

Lemma parent_chain_one_child fuel tree node c1 c2 n1 n2 p :
  links_ok tree ->
  c1 ∈ parent_chain fuel tree node -> c2 ∈ parent_chain fuel tree node ->
  tree !! c1 = Some n1 -> tree !! c2 = Some n2 ->
  parent n1 = Some p -> parent n2 = Some p -> c1 = c2.
Proof.
  intros Hl. revert node.
  induction fuel as [|fuel IH]; intros node; simpl;
    [by intros ?%elem_of_nil|].
  destruct (tree !! node) as [n|] eqn:Hn; [|by intros ?%elem_of_nil].
  intros H1 H2 Hc1 Hc2 Hp1 Hp2.
  assert (Hlow : ∀ c nc, c ∈ match parent n with
                             | Some p0 => parent_chain fuel tree p0
                             | None => []
                             end ->
            tree !! c = Some nc -> parent nc = parent n -> False).
  { intros c nc Hin Hc Hpc.
    destruct (parent n) as [p0|] eqn:Hp0; [|by apply elem_of_nil in Hin].
    pose proof (parent_chain_le _ _ _ _ Hl Hin).
    pose proof (Hl c nc p0 Hc Hpc). lia. }
  apply elem_of_cons in H1 as [->|H1]; apply elem_of_cons in H2 as [->|H2].
  - done.
  - exfalso. assert (n1 = n) as -> by congruence.
    eapply (Hlow c2 n2); eauto. congruence.
  - exfalso. assert (n2 = n) as -> by congruence.
    eapply (Hlow c1 n1); eauto. congruence.
  - destruct (parent n) as [p0|]; [|by apply elem_of_nil in H1].
    by eapply (IH p0).
Qed.

Lemma sum_dict_set (f : Action * nat -> nat) (k : Action) (v : nat)
    (d : list (Action * nat)) :
  sum_list (f <$> dict_set k v d) ≤ sum_list (f <$> d) + f (k, v).
Proof.
  induction d as [|[k' v'] d IH]; csimpl; [lia|].
  destruct (decide (k = k')); csimpl; lia.
Qed.

Lemma dict_set_values (k : Action) (v : nat) (d : list (Action * nat)) :
  NoDup d.*2 -> v ∉ d.*2 -> NoDup (dict_set k v d).*2.
Proof.
  induction d as [|[k' v'] d IH]; simpl.
  - intros _ _. apply NoDup_singleton.
  - intros [Hv' Hnd]%NoDup_cons Hv.
    apply not_elem_of_cons in Hv as [Hne Hv].
    destruct (decide (k = k')); simpl.
    + by apply NoDup_cons.
    + apply NoDup_cons. split; [|by apply IH].
      intros ([a x] & Hx & Hin)%list_elem_of_fmap. simpl in Hx. subst x.
      apply elem_of_dict_set in Hin as [[= _ ->]|Hin]; [done|].
      apply Hv'. apply list_elem_of_fmap. by exists (a, v').
Qed.

Lemma sum_list_ext {A : Type} (f f' : A -> nat) (l : list A) :
  (∀ x, x ∈ l -> f' x = f x) -> sum_list (f' <$> l) = sum_list (f <$> l).
Proof.
  induction l as [|x l IH]; csimpl; [done|]. intros Hall.
  rewrite (Hall x) by (by left). rewrite IH; [done|].
  intros y Hy. apply Hall. by right.
Qed.

(** The children in a chain of parents, among distinct children of one
    node: at most one, and none unless the node is in the chain. *)
Lemma children_on_chain tree fuel node i n (cs : list (Action * nat)) :
  links_ok tree -> node < length tree -> node < fuel ->
  tree !! i = Some n -> NoDup cs.*2 ->
  (∀ a c, (a, c) ∈ cs -> ∃ cn, tree !! c = Some cn ∧ parent cn = Some i) ->
  length (filter (λ kv : Action * nat, kv.2 ∈ parent_chain fuel tree node) cs)
  ≤ (if decide (i ∈ parent_chain fuel tree node) then 1 else 0).
Proof.
  intros Hl Hnode Hfuel Hi Hnd Hch.
  set (chain := parent_chain fuel tree node).
  set (on := filter (λ kv : Action * nat, kv.2 ∈ chain) cs).
  assert (Hon : ∀ kv, kv ∈ on -> kv ∈ cs ∧ kv.2 ∈ chain).
  { intros kv Hkv. apply list_elem_of_filter in Hkv as [? ?]. done. }
  assert (NoDup on.*2) as Hndon.
  { assert (on.*2 `sublist_of` cs.*2) as Hsub
      by (apply fmap_sublist, sublist_filter).
    eapply sublist_NoDup; eauto. }
  destruct on as [|[a1 c1] [|[a2 c2] rest]] eqn:Heq; simpl.
  - lia.
  - destruct (Hon (a1, c1)) as [Hin1 Hc1]; [by left|].
    destruct (Hch _ _ Hin1) as (cn1 & Hcn1 & Hp1).
    rewrite decide_True; [done|].
    eapply parent_chain_parent; eauto.
  - exfalso.
    destruct (Hon (a1, c1)) as [Hin1 Hc1]; [by left|].
    destruct (Hon (a2, c2)) as [Hin2 Hc2]; [right; by left|].
    destruct (Hch _ _ Hin1) as (cn1 & Hcn1 & Hp1).
    destruct (Hch _ _ Hin2) as (cn2 & Hcn2 & Hp2).
    assert (c1 = c2) as ->
      by (eapply (parent_chain_one_child fuel tree node); eauto).
    simpl in Hndon. apply NoDup_cons in Hndon as [Hnin _].
    apply Hnin. by left.
Qed.

Lemma sum_credited tree tree' (chain : list nat) won (cs : list (Action * nat)) :
  (∀ i n, tree !! i = Some n ->
     tree' !! i = Some (if decide (i ∈ chain) then credit won n else n)) ->
  (∀ a c, (a, c) ∈ cs -> ∃ cn, tree !! c = Some cn) ->
  sum_list ((λ kv : Action * nat,
               match tree' !! kv.2 with Some cn => visits cn | None => 0 end)
            <$> cs)
  = sum_list ((λ kv : Action * nat,
                 match tree !! kv.2 with Some cn => visits cn | None => 0 end)
              <$> cs)
    + length (filter (λ kv : Action * nat, kv.2 ∈ chain) cs).
Proof.
  intros Hold. induction cs as [|[a c] cs IH]; intros Hall; csimpl; [done|].
  destruct (Hall a c) as [cn Hc]; [by left|].
  rewrite (Hold _ _ Hc), Hc, IH by (intros a' c' ?; apply (Hall a'); by right).
  rewrite filter_cons. simpl.
  destruct (decide (c ∈ chain)); simpl; lia.
Qed.

Lemma searched_visits strat board state tree :
  engine strat -> searched strat board state tree ->
  ∀ i n, tree !! i = Some n ->
    NoDup (child_nodes n).*2 ∧ children_visits tree n ≤ visits n.
Proof.
  intros Hstrat.
  induction 1 as [|tree g tree' g' Hs IH Hstep].
  - intros [|i] n; simpl; [|by rewrite lookup_nil].
    intros [= <-]. split; [apply NoDup_nil_2|]. unfold children_visits. simpl. lia.
  - destruct (searched_ok _ _ _ _ Hstrat Hs) as [Hok Hvis].
    destruct (mcts_step_decomp _ _ _ _ _ _ _ _ Hstrat Hok Hvis Hstep)
      as (leaf & ln & tree1 & node & won & _ & Hl & Hok1 & Hnode & Hback & Hcase).
    (* the tree after expansion *)
    assert (IH1 : ∀ i n, tree1 !! i = Some n ->
              NoDup (child_nodes n).*2 ∧ children_visits tree1 n ≤ visits n).
    { destruct Hcase as [[-> _]|(action & Hin & _ & ->)]; [done|].
      set (new := MCTSNode_new (Some leaf) (Some action)
                    (legal_actions board (next_state board state action))).
      assert (Hsame : ∀ (cs : list (Action * nat)),
                (∀ a c, (a, c) ∈ cs -> ∃ cn, tree !! c = Some cn) ->
                sum_list ((λ kv : Action * nat,
                   match <[leaf := add_child action (length tree) ln]>
                           (tree ++ [new]) !! kv.2 with
                   | Some cn => visits cn | None => 0 end) <$> cs)
                = sum_list ((λ kv : Action * nat,
                     match tree !! kv.2 with
                     | Some cn => visits cn | None => 0 end) <$> cs)).
      { intros cs Hcs. apply sum_list_ext. intros [a c] Hac. simpl.
        destruct (Hcs a c Hac) as [cn Hc].
        rewrite (expand_store_old tree leaf ln _ new c cn Hl Hc), Hc.
        destruct (decide (c = leaf)) as [->|]; [|done].
        assert (cn = ln) by congruence. by subst. }
      assert (Hvalid : ∀ j m a c, tree !! j = Some m -> (a, c) ∈ child_nodes m ->
                ∃ cn, tree !! c = Some cn).
      { intros j m a c Hj Hac.
        destruct (ok_children _ Hok j m a c Hj Hac) as (cn & ? & _). eauto. }
      intros i n' Hi.
      destruct (expand_store_inv _ _ _ _ _ _ _ Hl Hi) as [[-> ->]|(m & Hm & ->)].
      - split; [apply NoDup_nil_2|]. unfold children_visits. simpl. lia.
      - destruct (IH _ _ Hm) as [Hnd Hsum].
        destruct (decide (i = leaf)) as [->|Hne].
        + assert (m = ln) as -> by congruence. simpl. split.
          * apply dict_set_values; [done|].
            intros ([a c] & Hc & Hin')%list_elem_of_fmap. simpl in Hc. subst c.
            destruct (Hvalid _ _ _ _ Hl Hin') as [cn Hcn].
            apply lookup_lt_Some in Hcn. lia.
          * unfold children_visits in *. simpl.
            etransitivity; [apply sum_dict_set|]. simpl.
            rewrite (expand_store_new tree leaf ln _ new Hl). simpl.
            rewrite Hsame by (intros a c; apply (Hvalid _ _ _ _ Hl)). lia.
        + split; [done|]. unfold children_visits in *.
          rewrite Hsame by (intros a c; apply (Hvalid _ _ _ _ Hm)). done. }
    (* the tree after backpropagation *)
    pose proof (tree_ok_links _ Hok1) as Hlinks.
    destruct (backpropagate_nodes tree1 node won Hlinks Hnode)
      as (tree2 & Hback' & Hlen & Hold & Hnew).
    assert (tree2 = tree') as -> by congruence.
    intros i n' Hi. destruct (Hnew _ _ Hi) as [n Hn].
    rewrite (Hold _ _ Hn) in Hi. injection Hi as <-.
    destruct (IH1 _ _ Hn) as [Hnd Hsum].
    assert (child_nodes (if decide (i ∈ parent_chain (length tree1) tree1 node)
                         then credit won n else n) = child_nodes n) as Hch
      by (by destruct (decide _)).
    split; [by rewrite Hch|].
    unfold children_visits in *. rewrite Hch.
    assert (Hvalid : ∀ a c, (a, c) ∈ child_nodes n ->
              ∃ cn, tree1 !! c = Some cn ∧ parent cn = Some i).
    { intros a c Hac. destruct (ok_children _ Hok1 i n a c Hn Hac)
        as (cn & ? & ? & _). eauto. }
    rewrite (sum_credited tree1 tree' _ won (child_nodes n) Hold)
      by (intros a c Hac; destruct (Hvalid a c Hac) as (cn & ? & _); eauto).
    pose proof (children_on_chain tree1 (length tree1) node i n (child_nodes n)
                  Hlinks Hnode Hnode Hn Hnd Hvalid) as Hcount.
    destruct (decide (i ∈ parent_chain (length tree1) tree1 node)); simpl; lia.
Qed.

(** X17: in the tree of a search the children registered at a node are
    distinct nodes, and their visits add up to at most the visits of the
    node: every backpropagation that visits a child visits its parent, and
    visits no second child of it. *)
Theorem searched_children_visits strat board state tree :
  engine strat -> searched strat board state tree ->
  ∀ i n, tree !! i = Some n ->
    NoDup (child_nodes n).*2 ∧ children_visits tree n ≤ visits n.
Proof. apply searched_visits. Qed.


End Extras.

(** ** The further properties on concrete inputs *)

Lemma rollout_vanilla_plays_legal_witness :
  rollout_vanilla 5 board (2, 1) first_choice = Ok ((0, 1), first_choice) ∧
  is_ended board (0, 1) = true.
Proof.
  split; [reflexivity|].
  exact (proj1 (rollout_vanilla_plays_legal 5 board (2, 1) first_choice
                  (0, 1) first_choice eq_refl)).
Defined.

Lemma rollout_vanilla_raises_witness :
  rollout_vanilla 3 Countdown.board 1 first_choice = Raise IndexError ∧
  ∃ actions, legal_play Countdown.board 1 actions ∧
    is_ended Countdown.board (play Countdown.board 1 actions) = false ∧
    legal_actions Countdown.board (play Countdown.board 1 actions) = [].
Proof.
  split; [reflexivity|].
  exact (proj2 (rollout_vanilla_raises 3 Countdown.board 1 first_choice
                  IndexError eq_refl)).
Defined.

Lemma rollout_vanilla_terminates_witness :
  ∃ state' g', rollout_vanilla 2 board (2, 1) first_choice = Ok (state', g') ∧
               is_ended board state' = true.
Proof.
  apply (rollout_vanilla_terminates fst 2 board (2, 1) first_choice).
  - intros [[|[|t]] p]; simpl; done.
  - intros [[|[|t]] p] a; simpl; [done| |].
    + intros _ Ha. apply list_elem_of_singleton in Ha as ->. lia.
    + intros _ Ha. apply elem_of_cons in Ha as [->|Ha]; [lia|].
      apply list_elem_of_singleton in Ha as ->. lia.
  - simpl. lia.
Defined.

Lemma playout_plays_legal_witness :
  playout 5 board (2, 1) first_choice = Ok ((0, 1), first_choice) ∧
  ∃ actions, legal_play board (2, 1) actions ∧
    (0, 1) = play board (2, 1) actions ∧ length actions ≤ 5 ∧
    (is_ended board (0, 1) = true ∨ length actions = 5) ∧
    first_choice = Nat.iter (length actions) rng_next first_choice.
Proof.
  split; [reflexivity|].
  exact (playout_plays_legal 5 board (2, 1) first_choice (0, 1) first_choice
           eq_refl).
Defined.

Lemma expand_leaf_effect_witness :
  initial_tree board (2, 1) !! 0 = Some (MCTSNode_new None None [1; 2]) ∧
  expand_leaf (initial_tree board (0, 1)) 0 board (0, 1) first_choice
  = Raise IndexError.
Proof.
  split; [reflexivity|].
  exact (proj1 (expand_leaf_effect (initial_tree board (0, 1)) 0 _ board (0, 1)
                  first_choice eq_refl) eq_refl).
Defined.

Lemma traverse_nodes_frontier_witness :
  traverse_nodes 1 (initial_tree board (2, 1)) 0 board (2, 1) 1 = Ok 0 ∧
  descends (initial_tree board (2, 1)) 0 0.
Proof.
  split; [reflexivity|].
  exact (proj1 (traverse_nodes_frontier 1 (initial_tree board (2, 1)) 0 board
                  (2, 1) 1 0 eq_refl)).
Defined.

Lemma traverse_nodes_unvisited_child_witness :
  unvisited_child_tree !! 0 = Some (mkNode None None [(1, 1)] [] 0 1) ∧
  traverse_nodes 2 unvisited_child_tree 0 board (1, 1) 1
  = Raise ZeroDivisionError.
Proof.
  split; [reflexivity|].
  apply (traverse_nodes_unvisited_child 1 unvisited_child_tree 0 _ board (1, 1) 1
           eq_refl eq_refl).
  - simpl. lia.
  - intros a c Hac. apply list_elem_of_singleton in Hac as [= -> ->].
    by eexists.
  - exists 1, 1. eexists. split; [by left|]. split; [reflexivity|done].
Defined.

Lemma mcts_step_grows_witness :
  mcts_step (modified 0) board (1, 1) 1 (initial_tree board (1, 1), first_choice)
  = Ok (one_token_tree, first_choice) ∧
  length one_token_tree = S (length (initial_tree board (1, 1))).
Proof.
  split; [exact one_token_search|].
  destruct (mcts_step_grows (modified 0) board (1, 1)
              (initial_tree board (1, 1)) first_choice one_token_tree
              first_choice (engine_modified 0) (searched_root _ _ _)
              one_token_search)
    as [[Hlen _]|(_ & _ & _ & _ & _ & _ & Hlen & _)]; [discriminate Hlen|exact Hlen].
Defined.

Lemma mcts_loop_counts_witness :
  mcts_loop 2 (modified 0) board (2, 1) 1 (initial_tree board (2, 1), first_choice)
  = Ok (two_token_tree, first_choice) ∧
  1 ≤ length two_token_tree ≤ 3.
Proof.
  assert (mcts_loop 2 (modified 0) board (2, 1) 1
            (initial_tree board (2, 1), first_choice)
          = Ok (two_token_tree, first_choice)) as Hrun
    by (vm_compute; reflexivity).
  split; [exact Hrun|].
  exact (proj2 (mcts_loop_counts 2 (modified 0) board (2, 1) first_choice
                  two_token_tree first_choice (engine_modified 0) Hrun)).
Defined.

Lemma drivers_return_legal_action_witness :
  think_budget 2 (modified 0) board (2, 1) first_choice = Ok (Some 2) ∧
  2 ∈ legal_actions board (2, 1).
Proof.
  assert (think_budget 2 (modified 0) board (2, 1) first_choice = Ok (Some 2))
    as Hrun by (vm_compute; reflexivity).
  split; [exact Hrun|].
  exact (drivers_return_legal_action (modified 0) 2 0 0 late_clock board (2, 1)
           first_choice 2 (engine_modified 0) (or_introl Hrun)).
Defined.

Lemma think_chooses_legal_action_witness :
  legal_actions board (2, 1) ≠ [] ∧ 1 < @frames script_stack ∧
  ∃ a, think_budget 1 (modified 0) board (2, 1) first_choice = Ok (Some a) ∧
       a ∈ legal_actions board (2, 1).
Proof.
  assert (legal_actions board (2, 1) ≠ []) as Hne by discriminate.
  assert (1 < @frames script_stack) as Hroom by (simpl; lia).
  split; [exact Hne|]. split; [exact Hroom|].
  exact (proj1 (proj2 (think_chooses_legal_action 1 0 board (2, 1) first_choice
                         Hne (le_n 1))) Hroom).
Defined.

Lemma searched_bookkeeping_witness :
  (∀ s, NoDup (legal_actions board s)) ∧
  searched (modified 0) board (2, 1) two_token_tree ∧
  ∀ i n, two_token_tree !! i = Some n ->
    NoDup (expanded_actions n ++ untried_actions n).
Proof.
  assert (∀ s, NoDup (legal_actions board s)) as Hnd.
  { intros [[|[|t]] p]; simpl.
    - apply NoDup_nil_2.
    - apply NoDup_singleton.
    - apply NoDup_cons. split; [|apply NoDup_singleton].
      intros Hin%list_elem_of_singleton. discriminate Hin. }
  split; [exact Hnd|]. split; [exact two_token_search|].
  exact (proj1 (searched_bookkeeping (modified 0) board (2, 1) two_token_tree
                  (engine_modified 0) Hnd two_token_search)).
Defined.

Lemma think_time_as_budget_witness :
  think_time 5 5 tenth_clock board (2, 1) first_choice = Ok (Some 1) ∧
  ∃ k, k ≤ 5 ∧
    think_budget k (vanilla 5) board (2, 1) first_choice = Ok (Some 1) ∧
    (∀ j, j < k -> PrimFloat.leb (elapsed_at tenth_clock j) 1 = true) ∧
    PrimFloat.leb (elapsed_at tenth_clock k) 1 = false.
Proof.
  assert (think_time 5 5 tenth_clock board (2, 1) first_choice = Ok (Some 1))
    as Hrun by (vm_compute; reflexivity).
  split; [exact Hrun|].
  exact (think_time_as_budget 5 5 tenth_clock board (2, 1) first_choice (Some 1)
           Hrun).
Defined.

Lemma think_single_action_witness :
  legal_actions board (1, 1) = [1] ∧ num_nodes < @frames deep_stack ∧
  think (stack := deep_stack) 0 board (1, 1) first_choice = Ok (Some 1).
Proof.
  assert (num_nodes < @frames deep_stack) as Hroom
    by (unfold num_nodes; simpl; lia).
  split; [reflexivity|]. split; [exact Hroom|].
  exact (proj2 (think_single_action (stack := deep_stack) 0 board (1, 1)
                  first_choice 1 eq_refl) Hroom).
Defined.

Lemma searched_children_visits_witness :
  searched (modified 0) board (2, 1) two_token_tree ∧
  ∀ i n, two_token_tree !! i = Some n ->
    NoDup (child_nodes n).*2 ∧ children_visits two_token_tree n ≤ visits n.
Proof.
  split; [exact two_token_search|].
  exact (searched_children_visits (modified 0) board (2, 1) two_token_tree
           (engine_modified 0) two_token_search).
Defined.
